(** * YALisp: the parser and the evaluator of [yalisp.h]

    A shallow embedding of [parse] and [eval_ast_node].

    - The input of [parse] is the [char] array behind [const char *input];
      [input[i]] is a read of that array, and a read outside it is undefined
      behaviour.  The text of the input is what stands before the first NUL;
      what stands behind it belongs to the array all the same (the driver
      reads every line into one buffer of 1024 characters).
    - [int] is the 32-bit two's-complement integer.  C leaves signed
      overflow undefined; the embedding wraps, which is what the machine
      does and what the specification records as the policy.
    - [parse] recurses on the cursor and not on a structure, so its
      embedding takes fuel; [parse] supplies enough of it, [parse_total]
      and [parse_eq] show that the fuel plays no part in the result. *)

From Stdlib Require Import List String Ascii ZArith Lia Bool Arith.
Import ListNotations.

Open Scope string_scope.

(** ** Outcomes of running a piece of C *)

Inductive exec (A : Type) : Type :=
| Returns (a : A)      (* the call returns [a] *)
| Undefined            (* a read outside an array, or of the wrong union member *)
| OutOfFuel.           (* the model ran out of fuel; no C behaviour *)

Arguments Returns {A} a.
Arguments Undefined {A}.
Arguments OutOfFuel {A}.

Definition bind {A B : Type} (m : exec A) (k : A -> exec B) : exec B :=
  match m with
  | Returns a => k a
  | Undefined => Undefined
  | OutOfFuel => OutOfFuel
  end.

Notation "x <- m ;; k" := (bind m (fun x => k))
  (at level 61, m at next level, right associativity).
Notation "' p <- m ;; k" := (bind m (fun x => let p := x in k))
  (at level 61, p pattern, m at next level, right associativity).

(** ** Data model *)

Inductive value : Type :=
| IntValue (int_value : Z)
| StringValue (string_value : string).

#[warnings="-register-all"]
Inductive ast_node : Type :=
| IntNode (int_value : Z)
| SymbolNode (symbol_value : string)
| StringNode (string_value : string)
| ListNode (items : list ast_node).

(** [result]: [is_error = 0] with a value, or [is_error = 1] with a message. *)
Inductive result : Type :=
| Success (result_value : value)
| Error (error_message : string).

Inductive parse_result : Type :=
| ParseSuccess (node : ast_node)
| ParseError (error_message : string).

(** The messages of the source, under the names the specification gives
    to the errors. *)
Definition UnmatchedOpenParen : string := "Unmatched '(' in input".
Definition UnterminatedString : string := "Unterminated string literal in input".
Definition UnexpectedEndOfInput : string := "Unexpected end of input".
Definition BareSymbolNotEvaluable : string := "Cannot evaluate a standalone symbol".
Definition EmptyListNotEvaluable : string := "Cannot evaluate an empty list".
Definition OperatorMustBeSymbol : string :=
  "First element of a list must be a symbol (operator)".
Definition UnknownOperator : string := "Unknown operator".
Definition TypeMismatchInt : string := "Non-integer argument to +".
Definition TypeMismatchString : string := "Non-string argument to concat".

(** ** Machine integers *)

Definition INT_MAX : Z := 2147483647.
Definition INT_MIN : Z := -2147483648.

(** The value of an [int] expression whose mathematical value is [z]. *)
Definition int_wrap (z : Z) : Z := ((z + 2147483648) mod 4294967296 - 2147483648)%Z.

(** ** Characters *)

Definition NUL : ascii := "000"%char.
Definition TAB : ascii := "009"%char.
Definition LF : ascii := "010"%char.
Definition QUOTE : ascii := "034"%char.

Definition is_space (c : ascii) : bool :=
  ((c =? " ") || (c =? LF) || (c =? TAB))%char.

Definition is_digit (c : ascii) : bool :=
  ((48 <=? nat_of_ascii c) && (nat_of_ascii c <=? 57))%nat.

(** Loop condition of the string branch: [input[*pos]] is neither the
    double quote nor NUL. *)
Definition in_string (c : ascii) : bool :=
  (negb (c =? QUOTE) && negb (c =? NUL))%char.

(** Loop condition of the symbol branch: [input[*pos]] is none of space,
    closing parenthesis, newline, tab.  NUL and the opening parenthesis
    are not tested. *)
Definition in_symbol (c : ascii) : bool :=
  (negb (c =? " ") && negb (c =? ")") && negb (c =? LF) && negb (c =? TAB))%char.

(** [c - '0'] *)
Definition digit_value (c : ascii) : Z := (Z.of_nat (nat_of_ascii c) - 48)%Z.

(** ** The parser *)

Module Parser.

(** What a call of [parse] comes to: a result and the final cursor. *)
Definition outcome : Type := exec (parse_result * nat).

(** [while (cond (input[*pos])) ( *pos)++;] where [suffix] is the array from
    [pos] on.  Leaving the array is undefined behaviour. *)
Fixpoint scan_suffix (cond : ascii -> bool) (suffix : list ascii) (pos : nat)
  : exec nat :=
  match suffix with
  | [] => Undefined
  | c :: rest => if cond c then scan_suffix cond rest (S pos) else Returns pos
  end.

Definition scan (cond : ascii -> bool) (input : list ascii) (pos : nat) : exec nat :=
  scan_suffix cond (skipn pos input) pos.

(** [while (input[*pos] >= '0' && input[*pos] <= '9')
       { value = value * 10 + (input[*pos] - '0'); ( *pos)++; }] *)
Fixpoint digits_suffix (suffix : list ascii) (pos : nat) (value : Z)
  : exec (Z * nat) :=
  match suffix with
  | [] => Undefined
  | c :: rest =>
      if is_digit c
      then digits_suffix rest (S pos) (int_wrap (value * 10 + digit_value c))
      else Returns (value, pos)
  end.

Definition digits (input : list ascii) (pos : nat) : exec (Z * nat) :=
  digits_suffix (skipn pos input) pos 0%Z.

(** [strndup (src, n)]: the first [n] characters of [src], or those before
    its first NUL when that comes earlier. *)
Fixpoint strndup (src : list ascii) (n : nat) : string :=
  match n, src with
  | S n', c :: rest => if (c =? NUL)%char then "" else String c (strndup rest n')
  | _, _ => ""
  end.

(** [input[pos]] *)
Definition read (input : list ascii) (pos : nat) : exec ascii :=
  match nth_error input pos with
  | Some c => Returns c
  | None => Undefined
  end.

(** The body of [parse].  [list_rec pos items] stands for the [while] loop of
    the list branch entered with the cursor at [pos] and the children [items]
    gathered so far.  The result comes with the final value of [*pos]. *)
Definition parse_body (list_rec : nat -> list ast_node -> outcome)
                      (input : list ascii) (pos : nat) : outcome :=
  p <- scan is_space input pos ;;
  c <- read input p ;;
  if (c =? "(")%char then
    list_rec (S p) []
  else if is_digit c then
    ' (value, p') <- digits input p ;;
    Returns (ParseSuccess (IntNode value), p')
  else if (c =? QUOTE)%char then
    let start := S p in
    q <- scan in_string input start ;;
    c' <- read input q ;;
    if (c' =? NUL)%char then
      Returns (ParseError UnterminatedString, q)
    else
      Returns (ParseSuccess (StringNode (strndup (skipn start input) (q - start))),
               S q)
  else if negb (c =? NUL)%char then
    let start := p in
    q <- scan in_symbol input start ;;
    Returns (ParseSuccess (SymbolNode (strndup (skipn start input) (q - start))), q)
  else
    Returns (ParseError UnexpectedEndOfInput, p).

(** The [while] loop of the list branch, one test of its condition at a
    time; [parse_rec pos] stands for the recursive call [parse (input, pos)]. *)
Definition list_body (parse_rec : nat -> outcome)
                     (list_rec : nat -> list ast_node -> outcome)
                     (input : list ascii) (pos : nat) (items : list ast_node) : outcome :=
  c <- read input pos ;;
  if (negb (c =? ")") && negb (c =? NUL))%char then
    ' (sub_result, pos') <- parse_rec pos ;;
    match sub_result with
    | ParseError message => Returns (ParseError message, pos')
    | ParseSuccess node => list_rec pos' (items ++ [node])%list
    end
  else if (c =? NUL)%char then
    Returns (ParseError UnmatchedOpenParen, pos)
  else
    Returns (ParseSuccess (ListNode items), S pos).

(** The recursion of [parse] follows the cursor and not a structure: the two
    bodies are tied together over a fuel. *)
Fixpoint parse_fuel (fuel : nat) (input : list ascii) (pos : nat) : outcome :=
  match fuel with
  | O => OutOfFuel
  | S fuel' => parse_body (parse_items fuel' input) input pos
  end

with parse_items (fuel : nat) (input : list ascii) (pos : nat)
                 (items : list ast_node) : outcome :=
  match fuel with
  | O => OutOfFuel
  | S fuel' =>
      list_body (parse_fuel fuel' input) (parse_items fuel' input) input pos items
  end.

(** [parse], with fuel that is enough whatever the array and the cursor
    (see [parse_total] and [parse_eq]). *)
Definition parse (input : list ascii) (pos : nat) : outcome :=
  parse_fuel (2 * List.length input + 2) input pos.

(** The list loop with fuel that is enough whatever the array and cursor. *)
Definition parse_list (input : list ascii) (pos : nat) (items : list ast_node) : outcome :=
  parse_items (2 * List.length input + 2) input pos items.

(** The text of the input: the characters before the first NUL. *)
Fixpoint text_of (input : list ascii) : list ascii :=
  match input with
  | [] => []
  | c :: rest => if (c =? NUL)%char then [] else c :: text_of rest
  end.

(** [strlen (input)] *)
Definition strlen (input : list ascii) : nat := List.length (text_of input).

(** The array that holds exactly the text [s] and its terminator. *)
Definition c_string (s : string) : list ascii := (list_ascii_of_string s ++ [NUL])%list.

End Parser.

(** ** The evaluator *)

Module Evaluator.

Section Loops.

(** The loops of the operators call the evaluator on each argument; [ev]
    stands for that recursive call. *)
Variable ev : ast_node -> exec result.

(** [for (i = 1; i < length; i++)] of [+]; [args] is [items[i..]]. *)
Fixpoint add_loop (args : list ast_node) (sum : Z) : exec result :=
  match args with
  | [] => Returns (Success (IntValue sum))
  | arg :: rest =>
      arg_result <- ev arg ;;
      match arg_result with
      | Error message => Returns (Error message)
      | Success (StringValue _) => Returns (Error TypeMismatchInt)
      | Success (IntValue v) => add_loop rest (int_wrap (sum + v))
      end
  end.

(** [for (i = 2; i < length; i++)] of [-]. *)
Fixpoint sub_loop (args : list ast_node) (diff : Z) : exec result :=
  match args with
  | [] => Returns (Success (IntValue diff))
  | arg :: rest =>
      arg_result <- ev arg ;;
      match arg_result with
      | Error message => Returns (Error message)
      | Success (StringValue _) => Returns (Error TypeMismatchInt)
      | Success (IntValue v) => sub_loop rest (int_wrap (diff - v))
      end
  end.

(** [-]: [items[1]] is read whatever the length; with no argument the read
    is past the end of the array. *)
Definition sub_op (args : list ast_node) : exec result :=
  match args with
  | [] => Undefined
  | arg :: rest =>
      arg_result <- ev arg ;;
      match arg_result with
      | Error message => Returns (Error message)
      | Success (StringValue _) => Returns (Error TypeMismatchInt)
      | Success (IntValue diff) => sub_loop rest diff
      end
  end.

(** First loop of [concat]: checks the arguments and sums their lengths.
    [inl] is the error result the loop returns with. *)
Fixpoint concat_length_loop (args : list ast_node) (total_length : nat)
  : exec (result + nat) :=
  match args with
  | [] => Returns (inr total_length)
  | arg :: rest =>
      arg_result <- ev arg ;;
      match arg_result with
      | Error message => Returns (inl (Error message))
      | Success (IntValue _) => Returns (inl (Error TypeMismatchString))
      | Success (StringValue s) =>
          concat_length_loop rest (total_length + String.length s)
      end
  end.

(** Second loop of [concat]: evaluates the arguments again and appends
    [result_value.string_value] without looking at the tags. *)
Fixpoint concat_copy_loop (args : list ast_node) (result_string : string)
  : exec string :=
  match args with
  | [] => Returns result_string
  | arg :: rest =>
      arg_result <- ev arg ;;
      match arg_result with
      | Success (StringValue s) => concat_copy_loop rest (result_string ++ s)
      | _ => Undefined
      end
  end.

Definition concat_op (args : list ast_node) : exec result :=
  checked <- concat_length_loop args 0 ;;
  match checked with
  | inl error => Returns error
  | inr _ =>
      result_string <- concat_copy_loop args "" ;;
      Returns (Success (StringValue result_string))
  end.

End Loops.

Fixpoint eval_ast_node (node : ast_node) : exec result :=
  match node with
  | IntNode v => Returns (Success (IntValue v))
  | StringNode s => Returns (Success (StringValue s))
  | SymbolNode _ => Returns (Error BareSymbolNotEvaluable)
  | ListNode [] => Returns (Error EmptyListNotEvaluable)
  | ListNode (op :: args) =>
      match op with
      | SymbolNode name =>
          if name =? "+" then add_loop eval_ast_node args 0%Z
          else if name =? "-" then sub_op eval_ast_node args
          else if name =? "concat" then concat_op eval_ast_node args
          else Returns (Error UnknownOperator)
      | _ => Returns (Error OperatorMustBeSymbol)
      end
  end.

End Evaluator.

Import Parser Evaluator.

(** [process_input] without the printing: [parse] from cursor 0, then
    [eval_ast_node]; [inl] is the message printed after [Error:], [inr] the
    value handed to [print_value]. *)
Definition process_input (input : list ascii) : exec (string + value) :=
  ' (parsed, _) <- parse input 0 ;;
  match parsed with
  | ParseError message => Returns (inl message)
  | ParseSuccess node =>
      eval_result <- eval_ast_node node ;;
      match eval_result with
      | Error message => Returns (inl message)
      | Success val => Returns (inr val)
      end
  end.

(** A string literal of the language: [s] between two double quotes. *)
Definition quoted (s : string) : string := String QUOTE (s ++ String QUOTE "").

(** The characters [fgets] takes from a stream when there is [room] for
    them: it stops after the first newline, or when the room is used up. *)
Fixpoint fgets_chars (room : nat) (stream : list ascii) : list ascii :=
  match room, stream with
  | S room', c :: rest =>
      c :: (if (c =? LF)%char then [] else fgets_chars room' rest)
  | _, _ => []
  end.

(** What [fgets (input, sizeof (input), stdin)] stores, [input] being the
    array of 1024 characters of the driver, when the stream holds [text]
    and a newline: at most 1023 characters, none after the first newline,
    then the NUL. *)
Definition line (text : string) : list ascii :=
  (fgets_chars 1023 (list_ascii_of_string text ++ [LF]) ++ [NUL])%list.

(** ** Vocabulary of the statements *)

(** The mathematical sum of a list of integers. *)
Definition sum_of (vs : list Z) : Z := fold_right Z.add 0%Z vs.

(** [args] evaluate, one by one, to the integers [vs]. *)
Definition eval_ints (args : list ast_node) (vs : list Z) : Prop :=
  Forall2 (fun arg v => eval_ast_node arg = Returns (Success (IntValue v))) args vs.

(** [args] evaluate, one by one, to the strings [ss]. *)
Definition eval_strings (args : list ast_node) (ss : list string) : Prop :=
  Forall2 (fun arg s => eval_ast_node arg = Returns (Success (StringValue s))) args ss.

(** The three operators of the evaluator. *)
Definition builtin (name : string) : Prop :=
  name = "+" \/ name = "-" \/ name = "concat".

(** [args] evaluate to values of the kind the operator [name] accepts. *)
Definition accepted_by (name : string) (args : list ast_node) : Prop :=
  ((name = "+" \/ name = "-") /\ exists vs, eval_ints args vs) \/
  (name = "concat" /\ exists ss, eval_strings args ss).

(** The texts of the Symbol nodes of a tree. *)
Fixpoint symbols_of (node : ast_node) : list string :=
  match node with
  | SymbolNode name => [name]
  | ListNode items => flat_map symbols_of items
  | _ => []
  end.

(** The text of a symbol holds none of the characters that end the scan of
    the symbol branch, and no NUL. *)
Definition symbol_text_ok (s : string) : Prop :=
  Forall (fun c => in_symbol c = true /\ c <> NUL) (list_ascii_of_string s).

(** The three messages of [parse]. *)
Definition parse_error_message (e : string) : Prop :=
  e = UnmatchedOpenParen \/ e = UnterminatedString \/ e = UnexpectedEndOfInput.

(** What holds of a result of [parse] entered at [pos]: the cursor does not
    move back; on success it stays within the array, moves when the
    character at [pos] is no closing parenthesis, and the symbols of the
    node are well formed; on failure the message is one of three and the
    cursor stands on a NUL. *)
Definition parse_post (input : list ascii) (pos : nat) (out : parse_result * nat) : Prop :=
  let (r, pos') := out in
  pos <= pos' /\
  match r with
  | ParseSuccess node =>
      pos' <= List.length input /\
      Forall symbol_text_ok (symbols_of node) /\
      (forall c, nth_error input pos = Some c -> c <> ")"%char -> pos < pos')
  | ParseError e =>
      parse_error_message e /\ nth_error input pos' = Some NUL
  end.

(** The same for the list loop entered at [pos] with the children [items]. *)
Definition list_post (input : list ascii) (pos : nat) (items : list ast_node)
                     (out : parse_result * nat) : Prop :=
  let (r, pos') := out in
  pos <= pos' /\
  match r with
  | ParseSuccess node =>
      pos < pos' <= List.length input /\
      exists more,
        node = ListNode (items ++ more) /\
        Forall symbol_text_ok (flat_map symbols_of more)
  | ParseError e =>
      parse_error_message e /\ nth_error input pos' = Some NUL
  end.

(** [children input from nodes to]: starting at [from], the list loop reads
    the complete children [nodes] one after the other and stands at [to]. *)
Inductive children (input : list ascii) : nat -> list ast_node -> nat -> Prop :=
| children_none pos : children input pos [] pos
| children_more pos c node pos' nodes pos'' :
    nth_error input pos = Some c ->
    c <> ")"%char -> c <> NUL ->
    parse input pos = Returns (ParseSuccess node, pos') ->
    children input pos' nodes pos'' ->
    children input pos (node :: nodes) pos''.

(** The value the digit loop computes on a run of digits. *)
Definition horner (run : list ascii) (value : Z) : Z :=
  fold_left (fun v c => int_wrap (v * 10 + digit_value c)%Z) run value.

(** The decimal digits of a non-negative [int], least significant first,
    as [printf] with [%d] writes them in [print_value]; an [int] has at most
    ten of them. *)
Definition digit_char (d : Z) : ascii := ascii_of_nat (48 + Z.to_nat d).

Fixpoint decimal_rev (fuel : nat) (n : Z) : list ascii :=
  match fuel with
  | O => []
  | S fuel' =>
      digit_char (n mod 10) ::
      (if (n / 10 =? 0)%Z then [] else decimal_rev fuel' (n / 10))
  end.

Definition decimal_text (n : Z) : list ascii := rev (decimal_rev 10 n).

(** ** Vocabulary of the further properties *)

(** The number a run of digits denotes, with no overflow. *)
Definition decimal_value (ds : list ascii) : Z :=
  fold_left (fun v c => (v * 10 + digit_value c)%Z) ds 0%Z.

(** What [printf] writes for [%d]. *)
Definition print_int (v : Z) : list ascii :=
  if (v <? 0)%Z then "-"%char :: decimal_text (- v) else decimal_text v.

(** The text [print_value] writes: the integer in decimal, or the string
    between two double quotes with nothing escaped. *)
Definition print_value (val : value) : string :=
  match val with
  | IntValue v => string_of_list_ascii (print_int v)
  | StringValue s => quoted s
  end.

(** Two arrays hold the same first [n] characters. *)
Definition same_prefix (n : nat) (a b : list ascii) : Prop :=
  firstn n a = firstn n b.

(** How far [parse] has read when it returns [r] with the cursor at
    [pos']: a list and a string end with the character before the cursor;
    an integer, a symbol and an error are known by the character at it. *)
Definition reach (r : parse_result) (pos' : nat) : nat :=
  match r with
  | ParseSuccess (ListNode _) | ParseSuccess (StringNode _) => pos'
  | _ => S pos'
  end.

(** The integer literals and the string literals of a tree. *)
Fixpoint int_literals (node : ast_node) : list Z :=
  match node with
  | IntNode v => [v]
  | ListNode items => flat_map int_literals items
  | _ => []
  end.

Fixpoint string_literals (node : ast_node) : list string :=
  match node with
  | StringNode s => [s]
  | ListNode items => flat_map string_literals items
  | _ => []
  end.

(** An [int]. *)
Definition int_ok (v : Z) : Prop := (INT_MIN <= v <= INT_MAX)%Z.

(** A text with no double quote and no NUL in it. *)
Definition string_text_ok (s : string) : Prop :=
  Forall (fun c => c <> QUOTE /\ c <> NUL) (list_ascii_of_string s).

Definition literals_ok (node : ast_node) : Prop :=
  Forall int_ok (int_literals node) /\ Forall string_text_ok (string_literals node).

Definition value_ok (val : value) : Prop :=
  match val with
  | IntValue v => int_ok v
  | StringValue s => string_text_ok s
  end.

(** No list of the tree is the operator [-] alone. *)
Fixpoint arity_ok (node : ast_node) : bool :=
  match node with
  | ListNode items =>
      negb match items with
           | [SymbolNode name] => name =? "-"
           | _ => false
           end
      && forallb arity_ok items
  | _ => true
  end.


(** * Properties of the evaluator *)

Section EvaluatorFacts.

Local Open Scope Z_scope.

Lemma int_wrap_small (z : Z) : INT_MIN <= z <= INT_MAX -> int_wrap z = z.
Proof.
  unfold INT_MIN, INT_MAX, int_wrap. intros Hz.
  rewrite Z.mod_small; lia.
Qed.

Lemma int_wrap_range (z : Z) : INT_MIN <= int_wrap z <= INT_MAX.
Proof.
  unfold INT_MIN, INT_MAX, int_wrap.
  pose proof (Z.mod_pos_bound (z + 2147483648) 4294967296 eq_refl). lia.
Qed.

(** Wrapping moves a number by a multiple of 2^32. *)
Lemma int_wrap_shift (z : Z) : exists k, int_wrap z = z + k * 4294967296.
Proof.
  exists (- ((z + 2147483648) / 4294967296)). unfold int_wrap.
  rewrite Z.mod_eq by lia. ring.
Qed.

Lemma int_wrap_congr (z k : Z) : int_wrap (z + k * 4294967296) = int_wrap z.
Proof.
  unfold int_wrap. f_equal.
  replace (z + k * 4294967296 + 2147483648) with (z + 2147483648 + k * 4294967296) by ring.
  apply Z_mod_plus_full.
Qed.

Lemma int_wrap_add_l (a b : Z) : int_wrap (int_wrap a + b) = int_wrap (a + b).
Proof.
  destruct (int_wrap_shift a) as [k ->].
  replace (a + k * 4294967296 + b) with (a + b + k * 4294967296) by ring.
  apply int_wrap_congr.
Qed.

Lemma int_wrap_sub_l (a b : Z) : int_wrap (int_wrap a - b) = int_wrap (a - b).
Proof. unfold Z.sub. apply int_wrap_add_l. Qed.

Lemma int_wrap_horner (a d : Z) : int_wrap (int_wrap a * 10 + d) = int_wrap (a * 10 + d).
Proof.
  destruct (int_wrap_shift a) as [k ->].
  replace ((a + k * 4294967296) * 10 + d) with (a * 10 + d + (10 * k) * 4294967296) by ring.
  apply int_wrap_congr.
Qed.

(** *** The loop of [+] *)

Lemma add_loop_ints args vs :
  eval_ints args vs ->
  forall rest sum,
    add_loop eval_ast_node (args ++ rest) (int_wrap sum) =
    add_loop eval_ast_node rest (int_wrap (sum + sum_of vs)).
Proof.
  induction 1 as [|arg v args vs Harg _ IH]; intros rest sum.
  - cbn [app sum_of fold_right]. now rewrite Z.add_0_r.
  - cbn [app add_loop]. rewrite Harg. cbn [bind].
    rewrite int_wrap_add_l, IH. cbn [sum_of fold_right].
    now rewrite Z.add_assoc.
Qed.

Lemma add_loop_error arg rest sum e :
  eval_ast_node arg = Returns (Error e) ->
  add_loop eval_ast_node (arg :: rest) sum = Returns (Error e).
Proof. intros H. cbn [add_loop]. now rewrite H. Qed.

Lemma add_loop_string arg rest sum s :
  eval_ast_node arg = Returns (Success (StringValue s)) ->
  add_loop eval_ast_node (arg :: rest) sum = Returns (Error TypeMismatchInt).
Proof. intros H. cbn [add_loop]. now rewrite H. Qed.

(** *** The loop of [-] *)

Lemma sub_loop_ints args vs :
  eval_ints args vs ->
  forall rest diff,
    sub_loop eval_ast_node (args ++ rest) (int_wrap diff) =
    sub_loop eval_ast_node rest (int_wrap (diff - sum_of vs)).
Proof.
  induction 1 as [|arg v args vs Harg _ IH]; intros rest diff.
  - cbn [app sum_of fold_right]. now rewrite Z.sub_0_r.
  - cbn [app sub_loop]. rewrite Harg. cbn [bind].
    rewrite int_wrap_sub_l, IH. cbn [sum_of fold_right].
    now rewrite Z.sub_add_distr.
Qed.

(** *** Short circuit: a failing argument after accepted ones *)

Lemma add_loop_short_circuit pre vs arg rest e :
  eval_ints pre vs ->
  eval_ast_node arg = Returns (Error e) ->
  forall sum, add_loop eval_ast_node (pre ++ arg :: rest) sum = Returns (Error e).
Proof.
  intros Hpre Harg. induction Hpre as [|a v pre vs Ha _ IH]; intros sum.
  - now apply add_loop_error.
  - cbn [app add_loop]. rewrite Ha. cbn [bind]. apply IH.
Qed.

Lemma sub_loop_short_circuit pre vs arg rest e :
  eval_ints pre vs ->
  eval_ast_node arg = Returns (Error e) ->
  forall diff, sub_loop eval_ast_node (pre ++ arg :: rest) diff = Returns (Error e).
Proof.
  intros Hpre Harg. induction Hpre as [|a v pre vs Ha _ IH]; intros diff.
  - cbn [app sub_loop]. now rewrite Harg.
  - cbn [app sub_loop]. rewrite Ha. cbn [bind]. apply IH.
Qed.

Lemma sub_op_short_circuit pre vs arg rest e :
  eval_ints pre vs ->
  eval_ast_node arg = Returns (Error e) ->
  sub_op eval_ast_node (pre ++ arg :: rest) = Returns (Error e).
Proof.
  intros Hpre Harg. destruct Hpre as [|first v pre vs Hfirst Hpre].
  - cbn [app sub_op]. now rewrite Harg.
  - cbn [app sub_op]. rewrite Hfirst. cbn [bind].
    now apply sub_loop_short_circuit with (vs := vs).
Qed.

(** *** The two loops of [concat] *)

Lemma append_assoc (a b c : string) : ((a ++ b) ++ c)%string = (a ++ (b ++ c))%string.
Proof. induction a as [|x a IH]; cbn; [reflexivity | now rewrite IH]. Qed.

Lemma append_empty_r (a : string) : (a ++ "")%string = a.
Proof. induction a as [|x a IH]; cbn; [reflexivity | now rewrite IH]. Qed.

(** [String.concat] with the empty separator is plain juxtaposition. *)
Lemma concat_cons (s : string) (ss : list string) :
  String.concat "" (s :: ss) = (s ++ String.concat "" ss)%string.
Proof.
  destruct ss as [|t ss]; cbn [String.concat].
  - now rewrite append_empty_r.
  - reflexivity.
Qed.

Lemma concat_length_loop_strings args ss :
  eval_strings args ss ->
  forall rest total,
    concat_length_loop eval_ast_node (args ++ rest) total =
    concat_length_loop eval_ast_node rest
      (total + fold_right (fun s n => String.length s + n)%nat 0%nat ss)%nat.
Proof.
  induction 1 as [|arg s args ss Harg _ IH]; intros rest total.
  - cbn [app fold_right]. now rewrite Nat.add_0_r.
  - cbn [app concat_length_loop]. rewrite Harg. cbn [bind].
    rewrite IH. cbn [fold_right]. now rewrite Nat.add_assoc.
Qed.

Lemma concat_copy_loop_strings args ss :
  eval_strings args ss ->
  forall acc,
    concat_copy_loop eval_ast_node args acc =
    Returns (acc ++ String.concat "" ss)%string.
Proof.
  induction 1 as [|arg s args ss Harg _ IH]; intros acc.
  - cbn. now rewrite append_empty_r.
  - cbn [concat_copy_loop]. rewrite Harg. cbn [bind].
    rewrite IH, concat_cons. now rewrite append_assoc.
Qed.

Lemma concat_op_short_circuit pre ss arg rest e :
  eval_strings pre ss ->
  eval_ast_node arg = Returns (Error e) ->
  concat_op eval_ast_node (pre ++ arg :: rest) = Returns (Error e).
Proof.
  intros Hpre Harg. unfold concat_op.
  rewrite (concat_length_loop_strings pre ss Hpre).
  cbn [concat_length_loop]. now rewrite Harg.
Qed.

Lemma concat_op_int pre ss arg rest v :
  eval_strings pre ss ->
  eval_ast_node arg = Returns (Success (IntValue v)) ->
  concat_op eval_ast_node (pre ++ arg :: rest) = Returns (Error TypeMismatchString).
Proof.
  intros Hpre Harg. unfold concat_op.
  rewrite (concat_length_loop_strings pre ss Hpre).
  cbn [concat_length_loop]. now rewrite Harg.
Qed.

Lemma concat_op_strings args ss :
  eval_strings args ss ->
  concat_op eval_ast_node args = Returns (Success (StringValue (String.concat "" ss))).
Proof.
  intros H. unfold concat_op.
  rewrite <- (app_nil_r args) at 1.
  rewrite (concat_length_loop_strings args ss H). cbn [concat_length_loop bind].
  now rewrite (concat_copy_loop_strings args ss H).
Qed.

End EvaluatorFacts.

(** * The evaluator against its specification *)

Section EvaluatorClaims.

Local Open Scope Z_scope.

(** C1.  The code does not return ArityError for the operator [-] applied to
    no argument: for every list of length below 2 whose first child is the
    symbol [-], [eval_ast_node] reads [items[1]] past the end of the array,
    which is undefined behaviour and no error result. *)
Theorem minus_without_argument_is_undefined (items : list ast_node) :
  hd_error items = Some (SymbolNode "-") ->
  (List.length items < 2)%nat ->
  eval_ast_node (ListNode items) = Undefined /\
  forall e, eval_ast_node (ListNode items) <> Returns (Error e).
Proof.
  intros Hhd Hlen.
  destruct items as [|op [|arg rest]]; cbn in Hhd, Hlen; try discriminate; try lia.
  injection Hhd as ->. cbn. split; [reflexivity | discriminate].
Qed.

Lemma minus_without_argument_is_undefined_witness :
  eval_ast_node (ListNode [SymbolNode "-"]) = Undefined /\
  forall e, eval_ast_node (ListNode [SymbolNode "-"]) <> Returns (Error e).
Proof.
  apply (minus_without_argument_is_undefined [SymbolNode "-"]).
  - reflexivity.
  - cbn. lia.
Defined.

(** C4, as stated, fails: in [(+ x s)] with [s] a string literal the third
    child evaluates successfully to a non-integer value, yet the result is
    the error of the second child, the bare symbol [x]. *)
Lemma add_mismatch_after_error :
  (exists arg v,
      In arg [SymbolNode "x"; StringNode "s"] /\
      eval_ast_node arg = Returns (Success v) /\
      forall n, v <> IntValue n) /\
  eval_ast_node (ListNode [SymbolNode "+"; SymbolNode "x"; StringNode "s"])
    = Returns (Error BareSymbolNotEvaluable) /\
  eval_ast_node (ListNode [SymbolNode "+"; SymbolNode "x"; StringNode "s"])
    <> Returns (Error TypeMismatchInt).
Proof.
  split; [|split].
  - exists (StringNode "s"), (StringValue "s"). repeat split.
    + right. left. reflexivity.
    + discriminate.
  - reflexivity.
  - discriminate.
Qed.

(** C4 (amended).  For a list whose first child is the symbol [+] and whose
    arguments [pre] evaluate to the integers [vs]: the result is the [int]
    sum of [vs], that is their sum wrapped to 32 bits, and their exact sum
    when that is an [int]; with no argument it is 0; and an argument that
    follows [pre] and evaluates to a string makes the result the error
    [Non-integer argument to +], whatever comes after it. *)
Theorem add_operator (pre : list ast_node) (vs : list Z) :
  eval_ints pre vs ->
  eval_ast_node (ListNode (SymbolNode "+" :: pre))
    = Returns (Success (IntValue (int_wrap (sum_of vs)))) /\
  (INT_MIN <= sum_of vs <= INT_MAX ->
   eval_ast_node (ListNode (SymbolNode "+" :: pre))
     = Returns (Success (IntValue (sum_of vs)))) /\
  eval_ast_node (ListNode [SymbolNode "+"]) = Returns (Success (IntValue 0)) /\
  forall arg s rest,
    eval_ast_node arg = Returns (Success (StringValue s)) ->
    eval_ast_node (ListNode (SymbolNode "+" :: pre ++ arg :: rest))
      = Returns (Error TypeMismatchInt).
Proof.
  intros Hpre.
  assert (Hsum : eval_ast_node (ListNode (SymbolNode "+" :: pre))
                 = Returns (Success (IntValue (int_wrap (sum_of vs))))).
  { cbn [eval_ast_node String.eqb Ascii.eqb Bool.eqb].
    rewrite <- (app_nil_r pre).
    change 0 with (int_wrap 0).
    rewrite (add_loop_ints pre vs Hpre). reflexivity. }
  split; [exact Hsum|]. split; [|split].
  - intros Hrange. rewrite Hsum. now rewrite int_wrap_small.
  - reflexivity.
  - intros arg s rest Harg.
    cbn [eval_ast_node String.eqb Ascii.eqb Bool.eqb].
    change 0 with (int_wrap 0).
    rewrite (add_loop_ints pre vs Hpre).
    now apply add_loop_string with (s := s).
Qed.

Lemma add_operator_witness :
  eval_ast_node (ListNode (SymbolNode "+" :: [IntNode 1; IntNode 2; IntNode 3]))
    = Returns (Success (IntValue 6)) /\
  eval_ast_node
    (ListNode (SymbolNode "+" :: [IntNode 1; IntNode 2; IntNode 3]
                                 ++ StringNode "x" :: [SymbolNode "y"])%list)
    = Returns (Error TypeMismatchInt).
Proof.
  assert (H : eval_ints [IntNode 1; IntNode 2; IntNode 3] [1; 2; 3]).
  { repeat constructor. }
  destruct (add_operator [IntNode 1; IntNode 2; IntNode 3] [1; 2; 3] H)
    as (Hsum & _ & _ & Hmismatch).
  split.
  - exact Hsum.
  - apply (Hmismatch (StringNode "x") "x" [SymbolNode "y"]). reflexivity.
Defined.

(** C5, as stated, fails: in [(concat x 1)] the third child evaluates
    successfully to a non-string value, yet the result is the error of the
    second child, the bare symbol [x]. *)
Lemma concat_mismatch_after_error :
  (exists arg v,
      In arg [SymbolNode "x"; IntNode 1] /\
      eval_ast_node arg = Returns (Success v) /\
      forall s, v <> StringValue s) /\
  eval_ast_node (ListNode [SymbolNode "concat"; SymbolNode "x"; IntNode 1])
    = Returns (Error BareSymbolNotEvaluable) /\
  eval_ast_node (ListNode [SymbolNode "concat"; SymbolNode "x"; IntNode 1])
    <> Returns (Error TypeMismatchString).
Proof.
  split; [|split].
  - exists (IntNode 1), (IntValue 1). repeat split.
    + right. left. reflexivity.
    + discriminate.
  - reflexivity.
  - discriminate.
Qed.

(** C5 (amended).  For a list whose first child is the symbol [concat] and
    whose arguments [pre] evaluate to the strings [ss]: the result is the
    strings of [ss] joined in order with no separator; with no argument it
    is the empty string; and an argument that follows [pre] and evaluates
    to an integer makes the result the error
    [Non-string argument to concat], whatever comes after it. *)
Theorem concat_operator (pre : list ast_node) (ss : list string) :
  eval_strings pre ss ->
  eval_ast_node (ListNode (SymbolNode "concat" :: pre))
    = Returns (Success (StringValue (String.concat "" ss))) /\
  eval_ast_node (ListNode [SymbolNode "concat"]) = Returns (Success (StringValue "")) /\
  forall arg v rest,
    eval_ast_node arg = Returns (Success (IntValue v)) ->
    eval_ast_node (ListNode (SymbolNode "concat" :: pre ++ arg :: rest))
      = Returns (Error TypeMismatchString).
Proof.
  intros Hpre. split; [|split].
  - cbn [eval_ast_node String.eqb Ascii.eqb Bool.eqb].
    now apply concat_op_strings.
  - reflexivity.
  - intros arg v rest Harg.
    cbn [eval_ast_node String.eqb Ascii.eqb Bool.eqb].
    now apply concat_op_int with (ss := ss) (v := v).
Qed.

Lemma concat_operator_witness :
  eval_ast_node
    (ListNode (SymbolNode "concat" :: [StringNode "a"; StringNode "b"; StringNode "c"]))
    = Returns (Success (StringValue "abc")) /\
  eval_ast_node
    (ListNode (SymbolNode "concat" :: [StringNode "a"; StringNode "b"; StringNode "c"]
                                      ++ IntNode 1 :: [StringNode "x"])%list)
    = Returns (Error TypeMismatchString).
Proof.
  assert (H : eval_strings [StringNode "a"; StringNode "b"; StringNode "c"]
                           ["a"; "b"; "c"]%string).
  { repeat constructor. }
  destruct (concat_operator _ _ H) as (Hjoin & _ & Hmismatch).
  split.
  - exact Hjoin.
  - apply (Hmismatch (IntNode 1) 1 [StringNode "x"]). reflexivity.
Defined.

(** C6.  Dispatch of [eval_ast_node] on the shape of the node: a bare symbol,
    the empty list, a list whose first child is no symbol, and a list whose
    first child is a symbol other than [+], [-] and [concat]. *)
Theorem eval_dispatch :
  (forall name, eval_ast_node (SymbolNode name) = Returns (Error BareSymbolNotEvaluable)) /\
  eval_ast_node (ListNode []) = Returns (Error EmptyListNotEvaluable) /\
  (forall op args,
      (forall name, op <> SymbolNode name) ->
      eval_ast_node (ListNode (op :: args)) = Returns (Error OperatorMustBeSymbol)) /\
  (forall name args,
      name <> "+"%string -> name <> "-"%string -> name <> "concat"%string ->
      eval_ast_node (ListNode (SymbolNode name :: args)) = Returns (Error UnknownOperator)).
Proof.
  split; [|split; [|split]].
  - reflexivity.
  - reflexivity.
  - intros op args Hop. destruct op as [v|name|s|items]; try reflexivity.
    now destruct (Hop name).
  - intros name args Hplus Hminus Hconcat. cbn [eval_ast_node].
    apply String.eqb_neq in Hplus, Hminus, Hconcat.
    now rewrite Hplus, Hminus, Hconcat.
Qed.

Lemma eval_dispatch_witness :
  eval_ast_node (SymbolNode "x") = Returns (Error BareSymbolNotEvaluable) /\
  eval_ast_node (ListNode []) = Returns (Error EmptyListNotEvaluable) /\
  eval_ast_node (ListNode [IntNode 1; IntNode 2]) = Returns (Error OperatorMustBeSymbol) /\
  eval_ast_node (ListNode [SymbolNode "foo"; IntNode 1]) = Returns (Error UnknownOperator).
Proof.
  destruct eval_dispatch as (Hsym & Hnil & Hop & Hunknown).
  split; [apply Hsym | split; [exact Hnil | split]].
  - apply Hop. discriminate.
  - apply Hunknown; discriminate.
Defined.

(** C9, as stated, fails: in [(+ s x)] with [s] a string literal the first
    argument evaluates successfully and the second yields an error, yet the
    result is not that error but the type mismatch raised at the first. *)
Lemma short_circuit_after_wrong_kind :
  builtin "+" /\
  Forall (fun arg => exists v, eval_ast_node arg = Returns (Success v)) [StringNode "s"] /\
  eval_ast_node (SymbolNode "x") = Returns (Error BareSymbolNotEvaluable) /\
  eval_ast_node (ListNode (SymbolNode "+" :: [StringNode "s"] ++ SymbolNode "x" :: [])%list)
    = Returns (Error TypeMismatchInt) /\
  eval_ast_node (ListNode (SymbolNode "+" :: [StringNode "s"] ++ SymbolNode "x" :: [])%list)
    <> Returns (Error BareSymbolNotEvaluable).
Proof.
  split; [left; reflexivity|]. split; [|split; [|split]].
  - constructor; [|constructor]. exists (StringValue "s"). reflexivity.
  - reflexivity.
  - reflexivity.
  - discriminate.
Qed.

(** C9 (amended).  For a list naming one of the three operators, if an
    argument yields an error while the arguments before it evaluate to
    values of the kind the operator accepts (integers for [+] and [-],
    strings for [concat]), the list evaluates to exactly that error,
    whatever arguments follow. *)
Theorem short_circuit (name : string) (pre : list ast_node) (arg : ast_node) (e : string) :
  accepted_by name pre ->
  eval_ast_node arg = Returns (Error e) ->
  forall rest,
    eval_ast_node (ListNode (SymbolNode name :: pre ++ arg :: rest)) = Returns (Error e).
Proof.
  intros [[[-> | ->] [vs Hpre]] | [-> [ss Hpre]]] Harg rest;
    cbn [eval_ast_node String.eqb Ascii.eqb Bool.eqb].
  - now apply add_loop_short_circuit with (vs := vs).
  - now apply sub_op_short_circuit with (vs := vs).
  - now apply concat_op_short_circuit with (ss := ss).
Qed.

Lemma short_circuit_witness :
  eval_ast_node
    (ListNode (SymbolNode "-" :: [IntNode 10; IntNode 1] ++ SymbolNode "x" :: [ListNode []])%list)
    = Returns (Error BareSymbolNotEvaluable).
Proof.
  apply (short_circuit "-" [IntNode 10; IntNode 1] (SymbolNode "x")).
  - left. split; [right; reflexivity|]. exists [10; 1]. repeat constructor.
  - reflexivity.
Defined.

End EvaluatorClaims.

(** * Properties of the parser *)

Section ScanFacts.

(** *** Characters *)

Lemma digit_is_plain (c : ascii) :
  is_digit c = true ->
  is_space c = false /\ in_symbol c = true /\ in_string c = true /\
  c <> "("%char /\ c <> ")"%char /\ c <> QUOTE /\ c <> NUL.
Proof.
  destruct c as [[] [] [] [] [] [] [] []]; vm_compute; intros H;
    try discriminate H; repeat split; discriminate.
Qed.

Lemma in_symbol_false (c : ascii) :
  in_symbol c = false <-> c = " "%char \/ c = ")"%char \/ c = LF \/ c = TAB.
Proof.
  unfold in_symbol. rewrite !andb_false_iff, !negb_false_iff, !Ascii.eqb_eq. tauto.
Qed.

Lemma is_space_false (c : ascii) :
  is_space c = false <-> c <> " "%char /\ c <> LF /\ c <> TAB.
Proof.
  unfold is_space. rewrite !orb_false_iff, !Ascii.eqb_neq. tauto.
Qed.

Lemma not_space_not_symbol (c : ascii) :
  is_space c = false -> in_symbol c = false -> c = ")"%char.
Proof.
  rewrite is_space_false, in_symbol_false. intuition congruence.
Qed.

Lemma in_string_false (c : ascii) : in_string c = false <-> c = QUOTE \/ c = NUL.
Proof.
  unfold in_string. rewrite andb_false_iff, !negb_false_iff, !Ascii.eqb_eq. tauto.
Qed.

Lemma in_string_true (c : ascii) : in_string c = true -> c <> NUL.
Proof.
  unfold in_string. rewrite andb_true_iff, !negb_true_iff, !Ascii.eqb_neq. tauto.
Qed.

(** *** The outcome monad *)

Lemma bind_returns {A B : Type} (m : exec A) (k : A -> exec B) (b : B) :
  bind m k = Returns b -> exists a, m = Returns a /\ k a = Returns b.
Proof. destruct m as [a| |]; cbn; intros H; try discriminate. now exists a. Qed.

Lemma read_returns (input : list ascii) (pos : nat) (c : ascii) :
  read input pos = Returns c <-> nth_error input pos = Some c.
Proof.
  unfold read. destruct (nth_error input pos); split; intros H;
    try discriminate; now inversion H.
Qed.

Lemma read_in_bounds (input : list ascii) (pos : nat) (c : ascii) :
  nth_error input pos = Some c -> pos < List.length input.
Proof. intros H. apply nth_error_Some. congruence. Qed.

(** *** Sub-arrays *)

Lemma skipn_run (input : list ascii) (pos : nat) (run tail : list ascii) :
  skipn pos input = (run ++ tail)%list ->
  skipn (pos + List.length run) input = tail.
Proof.
  intros H. rewrite Nat.add_comm, <- skipn_skipn, H.
  rewrite skipn_app, skipn_all, Nat.sub_diag. reflexivity.
Qed.

Lemma skipn_head (input : list ascii) (pos : nat) (c : ascii) (rest : list ascii) :
  skipn pos input = c :: rest -> nth_error input pos = Some c.
Proof. intros H. rewrite <- hd_error_skipn, H. reflexivity. Qed.

Lemma skipn_at (before after : list ascii) :
  skipn (List.length before) (before ++ after)%list = after.
Proof. rewrite skipn_app, skipn_all, Nat.sub_diag. reflexivity. Qed.

(** *** The scanning loops *)

Lemma scan_suffix_inv cond suffix pos q :
  scan_suffix cond suffix pos = Returns q ->
  exists run c rest,
    suffix = (run ++ c :: rest)%list /\ forallb cond run = true /\
    cond c = false /\ q = pos + List.length run.
Proof.
  revert pos. induction suffix as [|a suffix IH]; intros pos H; cbn in H.
  - discriminate.
  - destruct (cond a) eqn:Ha.
    + apply IH in H as (run & c & rest & -> & Hrun & Hc & ->).
      exists (a :: run), c, rest. cbn. rewrite Ha, Hrun. repeat split; auto; lia.
    + inversion H; subst. exists [], a, suffix. cbn. repeat split; auto.
Qed.

Lemma scan_suffix_run cond run c rest pos :
  forallb cond run = true -> cond c = false ->
  scan_suffix cond (run ++ c :: rest) pos = Returns (pos + List.length run).
Proof.
  revert pos. induction run as [|a run IH]; intros pos Hrun Hc; cbn.
  - rewrite Hc. f_equal. lia.
  - cbn in Hrun. apply andb_true_iff in Hrun as [Ha Hrun].
    rewrite Ha, IH by assumption. f_equal. lia.
Qed.

(** What a loop that stops at [q] has seen: a run of characters on which the
    condition holds, then a character of the array on which it fails. *)
Lemma scan_inv cond input pos q :
  scan cond input pos = Returns q ->
  exists run c rest,
    skipn pos input = (run ++ c :: rest)%list /\ forallb cond run = true /\
    cond c = false /\ q = pos + List.length run /\
    nth_error input q = Some c /\ skipn q input = c :: rest.
Proof.
  unfold scan. intros H.
  apply scan_suffix_inv in H as (run & c & rest & Hsplit & Hrun & Hc & ->).
  exists run, c, rest. repeat split; auto.
  - apply skipn_head with (rest := rest). now apply skipn_run.
  - now apply skipn_run.
Qed.

Lemma scan_bounds cond input pos q :
  scan cond input pos = Returns q -> pos <= q < List.length input.
Proof.
  intros H. apply scan_inv in H as (run & c & rest & _ & _ & _ & -> & Hc & _).
  apply read_in_bounds in Hc. lia.
Qed.

(** The loop moves exactly when the condition holds on the first character. *)
Lemma scan_first cond input pos q c0 :
  scan cond input pos = Returns q ->
  nth_error input pos = Some c0 ->
  if cond c0 then pos < q else q = pos.
Proof.
  intros H H0. apply scan_inv in H as (run & c & rest & Hsplit & Hrun & Hc & -> & _).
  rewrite <- hd_error_skipn, Hsplit in H0.
  destruct run as [|a run]; cbn in H0; inversion H0; subst.
  - rewrite Hc. cbn. lia.
  - cbn in Hrun. apply andb_true_iff in Hrun as [-> _]. cbn. lia.
Qed.

Lemma scan_at cond (before run after : list ascii) c :
  forallb cond run = true -> cond c = false ->
  scan cond (before ++ run ++ c :: after) (List.length before)
  = Returns (List.length before + List.length run).
Proof.
  intros Hrun Hc. unfold scan. rewrite skipn_at. now apply scan_suffix_run.
Qed.

Lemma digits_suffix_inv suffix pos value v q :
  digits_suffix suffix pos value = Returns (v, q) ->
  exists run c rest,
    suffix = (run ++ c :: rest)%list /\ forallb is_digit run = true /\
    is_digit c = false /\ q = pos + List.length run /\ v = horner run value.
Proof.
  revert pos value. induction suffix as [|a suffix IH]; intros pos value H; cbn in H.
  - discriminate.
  - destruct (is_digit a) eqn:Ha.
    + apply IH in H as (run & c & rest & -> & Hrun & Hc & -> & ->).
      exists (a :: run), c, rest. cbn. rewrite Ha, Hrun. repeat split; auto; lia.
    + inversion H; subst. exists [], a, suffix. cbn. repeat split; auto.
Qed.

Lemma digits_suffix_run run c rest pos value :
  forallb is_digit run = true -> is_digit c = false ->
  digits_suffix (run ++ c :: rest) pos value
  = Returns (horner run value, pos + List.length run).
Proof.
  revert pos value. induction run as [|a run IH]; intros pos value Hrun Hc; cbn.
  - rewrite Hc. do 2 f_equal. lia.
  - cbn in Hrun. apply andb_true_iff in Hrun as [Ha Hrun].
    rewrite Ha, IH by assumption. do 2 f_equal. lia.
Qed.

Lemma digits_bounds input pos v q c0 :
  digits input pos = Returns (v, q) ->
  nth_error input pos = Some c0 -> is_digit c0 = true ->
  pos < q < List.length input.
Proof.
  unfold digits. intros H H0 Hd.
  apply digits_suffix_inv in H as (run & c & rest & Hsplit & Hrun & Hc & -> & _).
  pose proof (skipn_run _ _ _ _ Hsplit) as Htail.
  apply skipn_head, read_in_bounds in Htail.
  rewrite <- hd_error_skipn, Hsplit in H0.
  destruct run as [|a run]; cbn in H0; inversion H0; subst.
  - congruence.
  - cbn [List.length] in *. lia.
Qed.

(** *** [strndup] *)

Lemma strndup_run (run tail : list ascii) :
  strndup (run ++ tail) (List.length run) = string_of_list_ascii (text_of run).
Proof.
  induction run as [|a run IH]; cbn.
  - now destruct tail.
  - destruct (a =? NUL)%char; cbn; [reflexivity | now rewrite IH].
Qed.

Lemma text_of_plain (run : list ascii) :
  Forall (fun c => c <> NUL) run -> text_of run = run.
Proof.
  induction 1 as [|a run Ha _ IH]; cbn.
  - reflexivity.
  - apply Ascii.eqb_neq in Ha. now rewrite Ha, IH.
Qed.

Lemma text_of_chars (cond : ascii -> bool) (run : list ascii) :
  forallb cond run = true ->
  Forall (fun c => cond c = true /\ c <> NUL) (text_of run).
Proof.
  induction run as [|a run IH]; cbn; intros H.
  - constructor.
  - apply andb_true_iff in H as [Ha Hrun].
    destruct (a =? NUL)%char eqn:Hnul; constructor; auto.
    split; [assumption | now apply Ascii.eqb_neq].
Qed.

(** The text of a symbol scanned from [pos] to [q]. *)
Lemma symbol_text input pos q :
  scan in_symbol input pos = Returns q ->
  symbol_text_ok (strndup (skipn pos input) (q - pos)).
Proof.
  intros H. apply scan_inv in H as (run & c & rest & Hsplit & Hrun & _ & -> & _).
  rewrite Hsplit, Nat.add_comm, Nat.add_sub, strndup_run.
  unfold symbol_text_ok. rewrite list_ascii_of_string_of_list_ascii.
  now apply text_of_chars.
Qed.

End ScanFacts.

Section ParseFacts.

Variable input : list ascii.

(** *** The branches of the two bodies *)

Lemma parse_body_inv (list_rec : nat -> list ast_node -> outcome) pos r pos' :
  parse_body list_rec input pos = Returns (r, pos') ->
  exists p c,
    scan is_space input pos = Returns p /\ nth_error input p = Some c /\
    ((c = "("%char /\ list_rec (S p) [] = Returns (r, pos')) \/
     (is_digit c = true /\
      exists v, digits input p = Returns (v, pos') /\ r = ParseSuccess (IntNode v)) \/
     (c = QUOTE /\
      exists q c',
        scan in_string input (S p) = Returns q /\ nth_error input q = Some c' /\
        ((c' = NUL /\ r = ParseError UnterminatedString /\ pos' = q) \/
         (c' = QUOTE /\ pos' = S q /\
          r = ParseSuccess (StringNode (strndup (skipn (S p) input) (q - S p)))))) \/
     (c <> "("%char /\ is_digit c = false /\ c <> QUOTE /\ c <> NUL /\
      exists q,
        scan in_symbol input p = Returns q /\ pos' = q /\
        r = ParseSuccess (SymbolNode (strndup (skipn p input) (q - p)))) \/
     (c = NUL /\ r = ParseError UnexpectedEndOfInput /\ pos' = p)).
Proof.
  unfold parse_body. intros H.
  apply bind_returns in H as (p & Hp & H).
  apply bind_returns in H as (c & Hc & H).
  apply read_returns in Hc.
  exists p, c. split; [assumption|]. split; [assumption|].
  destruct (c =? "(")%char eqn:Hopen.
  { left. apply Ascii.eqb_eq in Hopen. auto. }
  apply Ascii.eqb_neq in Hopen.
  destruct (is_digit c) eqn:Hdigit.
  { right; left. split; [reflexivity|].
    apply bind_returns in H as ([v p'] & Hd & H). inversion H; subst.
    now exists v. }
  destruct (c =? QUOTE)%char eqn:Hquote.
  { right; right; left. apply Ascii.eqb_eq in Hquote. split; [assumption|].
    apply bind_returns in H as (q & Hq & H).
    apply bind_returns in H as (c' & Hc' & H).
    apply read_returns in Hc'.
    exists q, c'. split; [assumption|]. split; [assumption|].
    destruct (c' =? NUL)%char eqn:Hnul; inversion H; subst.
    - left. apply Ascii.eqb_eq in Hnul. auto.
    - right. apply Ascii.eqb_neq in Hnul.
      apply scan_inv in Hq as (_ & c'' & _ & _ & _ & Hstop & _ & Hread & _).
      assert (c'' = c') by congruence. subst c''.
      apply in_string_false in Hstop as [-> | ->]; [auto | contradiction]. }
  apply Ascii.eqb_neq in Hquote.
  destruct (c =? NUL)%char eqn:Hnul; cbn [negb] in H.
  { right; right; right; right. apply Ascii.eqb_eq in Hnul.
    inversion H; subst. auto. }
  right; right; right; left. apply Ascii.eqb_neq in Hnul.
  apply bind_returns in H as (q & Hq & H). inversion H; subst.
  split; [assumption|]. split; [reflexivity|]. do 2 (split; [assumption|]).
  now exists pos'.
Qed.

Lemma list_body_inv (parse_rec : nat -> outcome)
      (list_rec : nat -> list ast_node -> outcome) pos items r pos' :
  list_body parse_rec list_rec input pos items = Returns (r, pos') ->
  exists c,
    nth_error input pos = Some c /\
    ((c <> ")"%char /\ c <> NUL /\
      exists sub q,
        parse_rec pos = Returns (sub, q) /\
        match sub with
        | ParseError e => r = ParseError e /\ pos' = q
        | ParseSuccess node => list_rec q (items ++ [node])%list = Returns (r, pos')
        end) \/
     (c = NUL /\ r = ParseError UnmatchedOpenParen /\ pos' = pos) \/
     (c = ")"%char /\ r = ParseSuccess (ListNode items) /\ pos' = S pos)).
Proof.
  unfold list_body. intros H.
  apply bind_returns in H as (c & Hc & H). apply read_returns in Hc.
  exists c. split; [assumption|].
  destruct (c =? ")")%char eqn:Hclose; cbn [negb andb] in H.
  { apply Ascii.eqb_eq in Hclose. subst c. cbn in H. inversion H; subst. auto. }
  apply Ascii.eqb_neq in Hclose.
  destruct (c =? NUL)%char eqn:Hnul; cbn [negb] in H.
  { apply Ascii.eqb_eq in Hnul. inversion H; subst. auto. }
  apply Ascii.eqb_neq in Hnul. left. do 2 (split; [assumption|]).
  apply bind_returns in H as ([sub q] & Hsub & H).
  exists sub, q. split; [assumption|].
  destruct sub as [node|e]; [assumption | inversion H; auto].
Qed.

(** *** What the results satisfy *)

Lemma parse_body_post (list_rec : nat -> list ast_node -> outcome) :
  (forall q items out, list_rec q items = Returns out -> list_post input q items out) ->
  forall pos out,
    parse_body list_rec input pos = Returns out -> parse_post input pos out.
Proof.
  intros Hlist pos [r pos'] H.
  apply parse_body_inv in H
    as (p & c & Hp & Hc & [[-> H] | [[Hd (v & H & ->)] | [[-> H] | [H | (-> & -> & ->)]]]]).
  - (* list *)
    apply Hlist in H. pose proof (scan_bounds _ _ _ _ Hp) as Hb.
    unfold list_post in H. unfold parse_post.
    destruct H as [Hle H]. split; [lia|].
    destruct r as [node|e]; [|assumption].
    destruct H as (Hlt & more & -> & Hsym). split; [lia|]. split.
    + exact Hsym.
    + intros; lia.
  - (* integer *)
    pose proof (scan_bounds _ _ _ _ Hp) as Hb.
    pose proof (digits_bounds _ _ _ _ _ H Hc Hd) as Hb'.
    cbn. repeat split; try lia. constructor.
  - (* string *)
    destruct H as (q & c' & Hq & Hc' & H).
    pose proof (scan_bounds _ _ _ _ Hp) as Hb.
    pose proof (scan_bounds _ _ _ _ Hq) as Hb'.
    destruct H as [(-> & -> & ->) | (-> & -> & ->)]; cbn.
    + split; [lia|]. split; [right; left; reflexivity | assumption].
    + repeat split; try lia. constructor.
  - (* symbol *)
    destruct H as (Hopen & Hdigit & Hquote & Hnul & q & Hq & -> & ->).
    pose proof (scan_bounds _ _ _ _ Hp) as Hb.
    pose proof (scan_bounds _ _ _ _ Hq) as Hb'.
    cbn. split; [lia|]. split; [lia|]. split.
    + constructor; [|constructor]. now apply symbol_text.
    + intros c0 Hc0 Hclose.
      pose proof (scan_first _ _ _ _ _ Hp Hc0) as Hfirst.
      destruct (is_space c0) eqn:Hspace; [lia|]. subst p.
      assert (c0 = c) by congruence. subst c0.
      pose proof (scan_first _ _ _ _ _ Hq Hc) as Hsym.
      destruct (in_symbol c) eqn:Hin; [assumption|].
      now destruct (Hclose (not_space_not_symbol c Hspace Hin)).
  - (* end of input *)
    pose proof (scan_bounds _ _ _ _ Hp) as Hb.
    cbn. split; [lia|]. split; [right; right; reflexivity | assumption].
Qed.

Lemma list_body_post (parse_rec : nat -> outcome)
      (list_rec : nat -> list ast_node -> outcome) :
  (forall q out, parse_rec q = Returns out -> parse_post input q out) ->
  (forall q items out, list_rec q items = Returns out -> list_post input q items out) ->
  forall pos items out,
    list_body parse_rec list_rec input pos items = Returns out ->
    list_post input pos items out.
Proof.
  intros Hparse Hlist pos items [r pos'] H.
  apply list_body_inv in H
    as (c & Hc & [(Hclose & Hnul & sub & q & Hsub & H) | [(-> & -> & ->) | (-> & -> & ->)]]).
  - apply Hparse in Hsub. unfold parse_post in Hsub. destruct Hsub as [Hle Hsub].
    destruct sub as [node|e].
    + destruct Hsub as (Hlen & Hsym & Hmove).
      specialize (Hmove c Hc Hclose).
      apply Hlist in H. unfold list_post in *. destruct H as [Hle' H].
      split; [lia|]. destruct r as [list|e]; [|assumption].
      destruct H as (Hb & more & -> & Hall). split; [lia|].
      exists (node :: more). split.
      * now rewrite <- app_assoc.
      * cbn [flat_map]. apply Forall_app. now split.
    + destruct H as [-> ->]. cbn. split; [lia | assumption].
  - cbn. split; [lia|]. split; [left; reflexivity | assumption].
  - apply read_in_bounds in Hc. cbn. split; [lia|]. split; [lia|].
    exists []. split; [now rewrite app_nil_r | constructor].
Qed.

Lemma parse_fuel_post fuel :
  (forall pos out, parse_fuel fuel input pos = Returns out -> parse_post input pos out) /\
  (forall pos items out,
      parse_items fuel input pos items = Returns out -> list_post input pos items out).
Proof.
  induction fuel as [|fuel [IHparse IHlist]].
  - split; intros; discriminate.
  - split.
    + intros pos out. cbn [parse_fuel]. now apply parse_body_post.
    + intros pos items out. cbn [parse_items]. now apply list_body_post.
Qed.

(** *** Fuel *)

Lemma scan_suffix_fuel cond suffix pos : scan_suffix cond suffix pos <> OutOfFuel.
Proof.
  revert pos. induction suffix as [|a suffix IH]; intros pos; cbn.
  - discriminate.
  - destruct (cond a); [apply IH | discriminate].
Qed.

Lemma digits_suffix_fuel suffix pos value : digits_suffix suffix pos value <> OutOfFuel.
Proof.
  revert pos value. induction suffix as [|a suffix IH]; intros pos value; cbn.
  - discriminate.
  - destruct (is_digit a); [apply IH | discriminate].
Qed.

(** More fuel changes nothing once the fuel is enough. *)
Lemma parse_body_mono (l1 l2 : nat -> list ast_node -> outcome) pos :
  (forall q items, l1 q items <> OutOfFuel -> l2 q items = l1 q items) ->
  parse_body l1 input pos <> OutOfFuel ->
  parse_body l2 input pos = parse_body l1 input pos.
Proof.
  unfold parse_body. intros Hl H.
  destruct (scan is_space input pos) as [p| |]; cbn [bind] in *; try reflexivity.
  destruct (read input p) as [c| |]; cbn [bind] in *; try reflexivity.
  destruct (c =? "(")%char; [now apply Hl | reflexivity].
Qed.

Lemma list_body_mono (p1 p2 : nat -> outcome)
      (l1 l2 : nat -> list ast_node -> outcome) pos items :
  (forall q, p1 q <> OutOfFuel -> p2 q = p1 q) ->
  (forall q items, l1 q items <> OutOfFuel -> l2 q items = l1 q items) ->
  list_body p1 l1 input pos items <> OutOfFuel ->
  list_body p2 l2 input pos items = list_body p1 l1 input pos items.
Proof.
  unfold list_body. intros Hp Hl H.
  destruct (read input pos) as [c| |]; cbn [bind] in *; try reflexivity.
  destruct (negb (c =? ")")%char && negb (c =? NUL)%char); [|reflexivity].
  rewrite Hp by (intros Hfuel; rewrite Hfuel in H; now apply H).
  destruct (p1 pos) as [[[node|e] q]| |]; cbn [bind] in *; try reflexivity.
  now apply Hl.
Qed.

Lemma parse_fuel_mono fuel :
  (forall pos,
      parse_fuel fuel input pos <> OutOfFuel ->
      parse_fuel (S fuel) input pos = parse_fuel fuel input pos) /\
  (forall pos items,
      parse_items fuel input pos items <> OutOfFuel ->
      parse_items (S fuel) input pos items = parse_items fuel input pos items).
Proof.
  induction fuel as [|fuel [IHparse IHlist]].
  - split; intros; now cbn in *.
  - split.
    + intros pos H. change (parse_fuel (S (S fuel)) input pos)
        with (parse_body (parse_items (S fuel) input) input pos).
      change (parse_fuel (S fuel) input pos)
        with (parse_body (parse_items fuel input) input pos) in *.
      now apply parse_body_mono.
    + intros pos items H. change (parse_items (S (S fuel)) input pos items)
        with (list_body (parse_fuel (S fuel) input) (parse_items (S fuel) input)
                        input pos items).
      change (parse_items (S fuel) input pos items)
        with (list_body (parse_fuel fuel input) (parse_items fuel input)
                        input pos items) in *.
      now apply list_body_mono.
Qed.

(** Twice the distance to the end of the array, and a little, is enough. *)
Lemma parse_fuel_enough fuel :
  (forall pos,
      2 * (List.length input - pos) < fuel ->
      parse_fuel fuel input pos <> OutOfFuel) /\
  (forall pos items,
      2 * (List.length input - pos) + 1 < fuel ->
      parse_items fuel input pos items <> OutOfFuel).
Proof.
  induction fuel as [|fuel [IHparse IHlist]].
  - split; intros; lia.
  - split.
    + intros pos Hfuel. cbn [parse_fuel]. unfold parse_body.
      destruct (scan is_space input pos) as [p| |] eqn:Hp; cbn [bind].
      2: discriminate.
      2: now apply scan_suffix_fuel in Hp.
      apply scan_bounds in Hp.
      destruct (read input p) as [c| |] eqn:Hc; cbn [bind]; try discriminate.
      2: { unfold read in Hc. destruct (nth_error input p); discriminate. }
      destruct (c =? "(")%char.
      { apply IHlist. lia. }
      destruct (is_digit c).
      { destruct (digits input p) as [[v p']| |] eqn:Hd; cbn [bind]; try discriminate.
        now apply digits_suffix_fuel in Hd. }
      destruct (c =? QUOTE)%char.
      { cbn zeta.
        destruct (scan in_string input (S p)) as [q| |] eqn:Hq; cbn [bind];
          try discriminate.
        2: now apply scan_suffix_fuel in Hq.
        unfold read. destruct (nth_error input q) as [c'|]; cbn [bind];
          try discriminate.
        destruct (c' =? NUL)%char; discriminate. }
      destruct (negb (c =? NUL)%char); try discriminate. cbn zeta.
      destruct (scan in_symbol input p) as [q| |] eqn:Hq; cbn [bind];
        try discriminate.
      now apply scan_suffix_fuel in Hq.
    + intros pos items Hfuel. cbn [parse_items]. unfold list_body.
      destruct (read input pos) as [c| |] eqn:Hc; cbn [bind]; try discriminate.
      2: { unfold read in Hc. destruct (nth_error input pos); discriminate. }
      apply read_returns in Hc. pose proof (read_in_bounds _ _ _ Hc) as Hlen.
      destruct (negb (c =? ")")%char && negb (c =? NUL)%char) eqn:Hloop.
      2: { destruct (c =? NUL)%char; discriminate. }
      apply andb_true_iff in Hloop as [Hclose _].
      apply negb_true_iff, Ascii.eqb_neq in Hclose.
      assert (Hsub : parse_fuel fuel input pos <> OutOfFuel) by (apply IHparse; lia).
      destruct (parse_fuel fuel input pos) as [[[node|e] q]| |] eqn:Hparse;
        cbn [bind]; try discriminate; try congruence.
      apply (proj1 (parse_fuel_post fuel)) in Hparse.
      destruct Hparse as (_ & _ & _ & Hmove). specialize (Hmove c Hc Hclose).
      apply IHlist. lia.
Qed.

Theorem parse_total pos : parse input pos <> OutOfFuel.
Proof. apply (proj1 (parse_fuel_enough _)). lia. Qed.

Theorem parse_list_total pos items : parse_list input pos items <> OutOfFuel.
Proof. apply (proj2 (parse_fuel_enough _)). lia. Qed.

(** *** [parse] and its list loop without fuel *)

Theorem parse_eq pos : parse input pos = parse_body (parse_list input) input pos.
Proof.
  unfold parse, parse_list.
  replace (2 * List.length input + 2) with (S (2 * List.length input + 1)) by lia.
  change (parse_fuel (S (2 * List.length input + 1)) input pos)
    with (parse_body (parse_items (2 * List.length input + 1) input) input pos).
  symmetry. apply parse_body_mono.
  - intros q items. apply (proj2 (parse_fuel_mono _)).
  - change (parse_fuel (S (2 * List.length input + 1)) input pos <> OutOfFuel).
    apply (proj1 (parse_fuel_enough _)). lia.
Qed.

Theorem parse_list_eq pos items :
  parse_list input pos items
  = list_body (parse input) (parse_list input) input pos items.
Proof.
  unfold parse, parse_list.
  replace (2 * List.length input + 2) with (S (2 * List.length input + 1)) by lia.
  change (parse_items (S (2 * List.length input + 1)) input pos items)
    with (list_body (parse_fuel (2 * List.length input + 1) input)
                    (parse_items (2 * List.length input + 1) input) input pos items).
  symmetry. apply list_body_mono.
  - intros q. apply (proj1 (parse_fuel_mono _)).
  - intros q its. apply (proj2 (parse_fuel_mono _)).
  - change (parse_items (S (2 * List.length input + 1)) input pos items <> OutOfFuel).
    apply (proj2 (parse_fuel_enough _)). lia.
Qed.

Lemma parse_result_post pos out :
  parse input pos = Returns out -> parse_post input pos out.
Proof. apply (proj1 (parse_fuel_post _)). Qed.

Lemma parse_list_result_post pos items out :
  parse_list input pos items = Returns out -> list_post input pos items out.
Proof. apply (proj2 (parse_fuel_post _)). Qed.

End ParseFacts.

Section ParseShapes.

(** *** Reading at a known place *)

Lemma read_at (before run after : list ascii) (c : ascii) :
  nth_error (before ++ run ++ c :: after) (List.length before + List.length run) = Some c.
Proof.
  rewrite app_assoc, <- length_app, nth_error_app2 by lia.
  now rewrite Nat.sub_diag.
Qed.

(** A loop whose condition fails on the first character does not move. *)
Lemma scan_stop cond input pos c :
  nth_error input pos = Some c -> cond c = false ->
  scan cond input pos = Returns pos.
Proof.
  intros Hc Hcond. apply nth_error_split in Hc as (before & after & -> & <-).
  unfold scan. rewrite skipn_at. cbn. now rewrite Hcond.
Qed.

(** *** The list loop over complete children *)

Lemma children_list input from nodes to :
  children input from nodes to ->
  forall items,
    parse_list input from items = parse_list input to (items ++ nodes).
Proof.
  induction 1 as [pos | pos c node pos' nodes pos'' Hc Hclose Hnul Hnode _ IH];
    intros items.
  - now rewrite app_nil_r.
  - rewrite parse_list_eq. unfold list_body.
    apply read_returns in Hc. rewrite Hc. cbn [bind].
    apply Ascii.eqb_neq in Hclose, Hnul. rewrite Hclose, Hnul. cbn [negb andb].
    rewrite Hnode. cbn [bind]. rewrite IH. now rewrite <- app_assoc.
Qed.

Lemma parse_list_at_nul input pos items :
  nth_error input pos = Some NUL ->
  parse_list input pos items = Returns (ParseError UnmatchedOpenParen, pos).
Proof.
  intros Hc. rewrite parse_list_eq. unfold list_body.
  apply read_returns in Hc. now rewrite Hc.
Qed.

Lemma parse_list_at_close input pos items :
  nth_error input pos = Some ")"%char ->
  parse_list input pos items = Returns (ParseSuccess (ListNode items), S pos).
Proof.
  intros Hc. rewrite parse_list_eq. unfold list_body.
  apply read_returns in Hc. now rewrite Hc.
Qed.

Lemma parse_list_child_error input pos items c e pos' :
  nth_error input pos = Some c -> c <> ")"%char -> c <> NUL ->
  parse input pos = Returns (ParseError e, pos') ->
  parse_list input pos items = Returns (ParseError e, pos').
Proof.
  intros Hc Hclose Hnul Hsub. rewrite parse_list_eq. unfold list_body.
  apply read_returns in Hc. rewrite Hc. cbn [bind].
  apply Ascii.eqb_neq in Hclose, Hnul. rewrite Hclose, Hnul. cbn [negb andb].
  now rewrite Hsub.
Qed.

(** [parse] at an opening parenthesis is the list loop after it. *)
Lemma parse_at_open input pos p :
  scan is_space input pos = Returns p ->
  nth_error input p = Some "("%char ->
  parse input pos = parse_list input (S p) [].
Proof.
  intros Hp Hc. rewrite parse_eq. unfold parse_body. rewrite Hp. cbn [bind].
  apply read_returns in Hc. now rewrite Hc.
Qed.

(** A list whose children are complete and whose closing parenthesis
    follows the last of them. *)
Lemma closed_list_at input pos p nodes q :
  scan is_space input pos = Returns p ->
  nth_error input p = Some "("%char ->
  children input (S p) nodes q ->
  nth_error input q = Some ")"%char ->
  parse input pos = Returns (ParseSuccess (ListNode nodes), S q).
Proof.
  intros Hp Hopen Hchildren Hclose.
  rewrite (parse_at_open input pos p Hp Hopen).
  rewrite (children_list input (S p) nodes q Hchildren).
  now apply parse_list_at_close.
Qed.

(** A string literal: the characters between the quotes, as they are. *)
Lemma string_run_at (before spaces body after : list ascii) :
  forallb is_space spaces = true ->
  forallb in_string body = true ->
  parse (before ++ spaces ++ QUOTE :: body ++ QUOTE :: after) (List.length before)
  = Returns (ParseSuccess (StringNode (string_of_list_ascii body)),
             List.length before + List.length spaces + List.length body + 2).
Proof.
  intros Hspaces Hbody. rewrite parse_eq. unfold parse_body.
  rewrite scan_at by (assumption || reflexivity). cbn [bind].
  pose proof (read_at before spaces (body ++ QUOTE :: after) QUOTE) as Hc.
  rewrite (proj2 (read_returns _ _ _) Hc). cbn [bind].
  change (QUOTE =? "(")%char with false. change (is_digit QUOTE) with false.
  rewrite Ascii.eqb_refl. cbn zeta.
  set (start := S (List.length before + List.length spaces)).
  assert (Hinput : (before ++ spaces ++ QUOTE :: body ++ QUOTE :: after
                    = (before ++ spaces ++ [QUOTE]) ++ body ++ QUOTE :: after)%list).
  { now rewrite <- !app_assoc. }
  assert (Hstart : start = List.length (before ++ spaces ++ [QUOTE])).
  { unfold start. rewrite !length_app. cbn. lia. }
  rewrite Hinput, Hstart.
  rewrite scan_at by (assumption || reflexivity). cbn [bind].
  rewrite (proj2 (read_returns _ _ _) (read_at _ body after QUOTE)). cbn [bind].
  change (QUOTE =? NUL)%char with false. cbn iota.
  rewrite skipn_at, Nat.add_comm, Nat.add_sub, strndup_run.
  rewrite text_of_plain.
  - do 3 f_equal. rewrite !length_app. cbn. lia.
  - apply Forall_forall. intros c Hin. apply in_string_true.
    rewrite forallb_forall in Hbody. now apply Hbody.
Qed.

(** *** Decimal digits *)

Local Open Scope Z_scope.

Lemma digit_char_spec (d : Z) :
  0 <= d < 10 -> is_digit (digit_char d) = true /\ digit_value (digit_char d) = d.
Proof.
  intros Hd.
  assert (Hcases : d = 0 \/ d = 1 \/ d = 2 \/ d = 3 \/ d = 4 \/
                   d = 5 \/ d = 6 \/ d = 7 \/ d = 8 \/ d = 9) by lia.
  repeat (destruct Hcases as [-> | Hcases]; [split; reflexivity|]).
  subst d. split; reflexivity.
Qed.

Lemma decimal_rev_digits (fuel : nat) (n : Z) :
  0 <= n -> forallb is_digit (decimal_rev fuel n) = true.
Proof.
  revert n. induction fuel as [|fuel IH]; intros n Hn; cbn [decimal_rev forallb].
  - reflexivity.
  - pose proof (Z.mod_pos_bound n 10 eq_refl) as Hmod.
    rewrite (proj1 (digit_char_spec _ Hmod)). cbn [andb].
    destruct (n / 10 =? 0); [reflexivity|].
    apply IH. apply Z.div_pos; lia.
Qed.

Lemma horner_snoc (run : list ascii) (c : ascii) (value : Z) :
  horner (run ++ [c]) value = int_wrap (horner run value * 10 + digit_value c).
Proof. unfold horner. now rewrite fold_left_app. Qed.

(** The digit loop reads back the number whose digits it is given. *)
Lemma horner_decimal_rev (fuel : nat) (n : Z) :
  0 <= n < 10 ^ Z.of_nat fuel -> n <= INT_MAX ->
  horner (rev (decimal_rev fuel n)) 0 = n.
Proof.
  revert n. induction fuel as [|fuel IH]; intros n Hn Hmax.
  - cbn in *. lia.
  - rewrite Nat2Z.inj_succ, Z.pow_succ_r in Hn by lia.
    cbn [decimal_rev rev]. rewrite horner_snoc.
    pose proof (Z.mod_pos_bound n 10 eq_refl) as Hmod.
    rewrite (proj2 (digit_char_spec _ Hmod)).
    assert (Hrest : horner (rev (if n / 10 =? 0 then [] else decimal_rev fuel (n / 10))) 0
                    = n / 10).
    { destruct (n / 10 =? 0) eqn:Hzero.
      - apply Z.eqb_eq in Hzero. now rewrite Hzero.
      - apply IH.
        + split; [apply Z.div_pos; lia | apply Z.div_lt_upper_bound; lia].
        + pose proof (Z.div_le_upper_bound n 10 n). unfold INT_MAX in *. lia. }
    rewrite Hrest.
    replace (n / 10 * 10 + n mod 10) with n by (rewrite (Z.div_mod n 10) at 1; lia).
    apply int_wrap_small. unfold INT_MIN, INT_MAX in *. lia.
Qed.

Lemma decimal_text_digits (n : Z) :
  0 <= n -> forallb is_digit (decimal_text n) = true.
Proof.
  intros Hn. unfold decimal_text. apply forallb_forall. intros c Hc.
  apply in_rev in Hc.
  pose proof (decimal_rev_digits 10 n Hn) as H.
  rewrite forallb_forall in H. now apply H.
Qed.

Lemma decimal_text_first (n : Z) :
  exists d ds, decimal_text n = d :: ds.
Proof.
  unfold decimal_text. cbn [decimal_rev rev].
  destruct (rev _ ++ [digit_char (n mod 10)])%list as [|d ds] eqn:H.
  - now apply app_eq_nil in H as [_ H].
  - now exists d, ds.
Qed.

End ParseShapes.

(** * The parser against its specification *)

Section ParserClaims.

(** C2, as stated, fails twice: the scan of a symbol does not stop at an
    opening parenthesis, so [a(b] is one symbol; and it is entered at a
    closing parenthesis, where it reads nothing, so the symbol is empty. *)
Lemma symbol_with_paren_and_empty_symbol :
  parse (c_string "a(b ") 0 = Returns (ParseSuccess (SymbolNode "a(b"), 3) /\
  In "("%char (list_ascii_of_string "a(b") /\
  parse (c_string ")") 0 = Returns (ParseSuccess (SymbolNode ""), 0).
Proof.
  split; [reflexivity|]. split; [|reflexivity].
  right. left. reflexivity.
Qed.

(** C2 (amended).  Every symbol of a node that [parse] returns consists of
    characters that are none of space, tab, newline, closing parenthesis and
    NUL.  When the node itself is a symbol, the character at the cursor is
    one of space, tab, newline, closing parenthesis, and the symbol is empty
    only if the first character after the white space is a closing
    parenthesis, where the cursor still stands. *)
Theorem parsed_symbols (input : list ascii) (pos : nat) (node : ast_node) (pos' : nat) :
  parse input pos = Returns (ParseSuccess node, pos') ->
  (forall s c,
      In s (symbols_of node) -> In c (list_ascii_of_string s) ->
      c <> " "%char /\ c <> TAB /\ c <> LF /\ c <> ")"%char /\ c <> NUL) /\
  (forall s,
      node = SymbolNode s ->
      (exists c,
          nth_error input pos' = Some c /\
          (c = " "%char \/ c = ")"%char \/ c = LF \/ c = TAB)) /\
      (s = ""%string ->
       scan is_space input pos = Returns pos' /\
       nth_error input pos' = Some ")"%char)).
Proof.
  intros H. split.
  - intros s c Hs Hc.
    apply parse_result_post in H. destruct H as (_ & _ & Hsym & _).
    rewrite Forall_forall in Hsym. specialize (Hsym s Hs).
    unfold symbol_text_ok in Hsym. rewrite Forall_forall in Hsym.
    destruct (Hsym c Hc) as [Hin Hnul].
    unfold in_symbol in Hin.
    rewrite !andb_true_iff, !negb_true_iff, !Ascii.eqb_neq in Hin. tauto.
  - intros s ->. rewrite parse_eq in H.
    apply parse_body_inv in H
      as (p & c & Hp & Hc & [[-> H] | [[Hd (v & H & Hr)] | [[-> H] | [H | (_ & Hr & _)]]]]);
      try discriminate.
    + apply parse_list_result_post in H. destruct H as (_ & _ & more & Hnode & _).
      discriminate.
    + destruct H as (q & c' & _ & _ & [(_ & Hr & _) | (_ & _ & Hr)]); discriminate.
    + destruct H as (Hopen & Hdigit & Hquote & Hnul & q & Hq & -> & Hr).
      injection Hr as ->. pose proof Hp as Hskip.
      apply scan_inv in Hp as (_ & c0 & _ & _ & _ & Hspace & _ & Hc0 & _).
      assert (c0 = c) by congruence. subst c0.
      apply scan_inv in Hq as (run & c' & rest & Hsplit & Hrun & Hstop & -> & Hc' & _).
      split.
      * exists c'. split; [assumption | now apply in_symbol_false].
      * rewrite Hsplit, Nat.add_comm, Nat.add_sub, strndup_run.
        rewrite <- hd_error_skipn, Hsplit in Hc.
        destruct run as [|a run]; cbn in Hc; inversion Hc; subst.
        -- intros _. cbn [List.length] in *. rewrite Nat.add_0_r in *.
           cbn [Nat.add]. split; [assumption|]. rewrite Hc'. f_equal.
           now apply not_space_not_symbol.
        -- cbn. apply Ascii.eqb_neq in Hnul. rewrite Hnul. discriminate.
Qed.

Lemma parsed_symbols_witness :
  Forall (fun s =>
            Forall (fun c => c <> " "%char /\ c <> TAB /\ c <> LF /\
                             c <> ")"%char /\ c <> NUL)
                   (list_ascii_of_string s))
         (symbols_of (ListNode [SymbolNode "+1"; IntNode 2])) /\
  exists c,
    nth_error (c_string "x ") 1 = Some c /\
    (c = " "%char \/ c = ")"%char \/ c = LF \/ c = TAB).
Proof.
  split.
  - apply Forall_forall. intros s Hs. apply Forall_forall. intros c Hc.
    revert s c Hs Hc.
    apply (parsed_symbols (c_string "(+1 2)") 0 (ListNode [SymbolNode "+1"; IntNode 2]) 6).
    reflexivity.
  - assert (H : parse (c_string "x ") 0 = Returns (ParseSuccess (SymbolNode "x"), 1))
      by reflexivity.
    destruct (parsed_symbols _ _ _ _ H) as [_ Htop].
    destruct (Htop "x"%string eq_refl) as [Hstop _]. exact Hstop.
Defined.

(** C3.  For a non-negative [int] [n], [parse] on the decimal text of [n],
    from cursor 0, returns the integer node of [n] with the cursor after the
    text, and that node evaluates to the integer value [n]. *)
Theorem int_literal_roundtrip (n : Z) (rest : list ascii) :
  (0 <= n <= INT_MAX)%Z ->
  parse (decimal_text n ++ NUL :: rest) 0
    = Returns (ParseSuccess (IntNode n), List.length (decimal_text n)) /\
  eval_ast_node (IntNode n) = Returns (Success (IntValue n)).
Proof.
  intros Hn. split; [|reflexivity].
  assert (Hdigits : forallb is_digit (decimal_text n) = true)
    by (apply decimal_text_digits; lia).
  assert (Hvalue : horner (decimal_text n) 0 = n).
  { apply horner_decimal_rev; unfold INT_MAX in *; lia. }
  destruct (decimal_text_first n) as (d & ds & Htext).
  assert (Hd : is_digit d = true).
  { rewrite Htext in Hdigits. cbn [forallb] in Hdigits.
    now apply andb_true_iff in Hdigits as [Hd _]. }
  destruct (digit_is_plain d Hd) as (Hspace & _ & _ & Hopen & _).
  apply Ascii.eqb_neq in Hopen.
  assert (Hscan : scan is_space (decimal_text n ++ NUL :: rest) 0 = Returns 0).
  { unfold scan. rewrite Htext. cbn. now rewrite Hspace. }
  assert (Hread : read (decimal_text n ++ NUL :: rest) 0 = Returns d).
  { now rewrite Htext. }
  assert (Hloop : digits (decimal_text n ++ NUL :: rest) 0
                  = Returns (n, List.length (decimal_text n))).
  { unfold digits. cbn [skipn].
    rewrite digits_suffix_run by (assumption || reflexivity).
    now rewrite Hvalue. }
  rewrite parse_eq. unfold parse_body.
  rewrite Hscan. cbn [bind]. rewrite Hread. cbn [bind].
  rewrite Hopen, Hd, Hloop. reflexivity.
Qed.

Lemma int_literal_roundtrip_witness :
  parse (decimal_text 2147483647 ++ NUL :: []) 0
    = Returns (ParseSuccess (IntNode 2147483647),
               List.length (decimal_text 2147483647)) /\
  eval_ast_node (IntNode 2147483647) = Returns (Success (IntValue 2147483647)).
Proof.
  apply (int_literal_roundtrip 2147483647 []). unfold INT_MAX. lia.
Defined.

(** With the end of input inside an opened list the error is not always
    the unmatched parenthesis.  After an opening quote inside the list it
    is the unterminated string, handed up unchanged; and when only a
    newline stands between the parenthesis and the end, as in the line the
    driver reads for a lone parenthesis, the nested call reports the
    unexpected end of input. *)
Lemma end_of_input_inside_list :
  parse ["("; QUOTE; "a"; NUL]%char 0 = Returns (ParseError UnterminatedString, 3) /\
  parse ["("; LF; NUL]%char 0 = Returns (ParseError UnexpectedEndOfInput, 2) /\
  UnterminatedString <> UnmatchedOpenParen /\
  UnexpectedEndOfInput <> UnmatchedOpenParen.
Proof. repeat split; (reflexivity || discriminate). Qed.

(** X17.  The errors of [parse] are the unmatched parenthesis, the
    unterminated string and the unexpected end of input, and each is
    returned with the cursor on a NUL of the array (the one that ends the
    text, unless the scan of a symbol has run over that one before).  With
    [p] the first place at or after the cursor that holds no white space:
    a NUL at [p] gives the unexpected end of input; a quote at [p] with no
    second quote before the NUL gives the unterminated string; an opening
    parenthesis at [p] gives the unmatched parenthesis when the NUL stands
    right after it or right after a complete child, and hands up unchanged
    the error of a child that fails. *)
Theorem parse_errors (input : list ascii) (pos p : nat) :
  scan is_space input pos = Returns p ->
  (forall e pos',
      parse input pos = Returns (ParseError e, pos') ->
      parse_error_message e /\ nth_error input pos' = Some NUL) /\
  (nth_error input p = Some NUL ->
   parse input pos = Returns (ParseError UnexpectedEndOfInput, p)) /\
  (forall q,
      nth_error input p = Some QUOTE ->
      scan in_string input (S p) = Returns q ->
      nth_error input q = Some NUL ->
      parse input pos = Returns (ParseError UnterminatedString, q)) /\
  (forall nodes q,
      nth_error input p = Some "("%char ->
      children input (S p) nodes q ->
      (nth_error input q = Some NUL ->
       parse input pos = Returns (ParseError UnmatchedOpenParen, q)) /\
      (forall c e q',
          nth_error input q = Some c -> c <> ")"%char -> c <> NUL ->
          parse input q = Returns (ParseError e, q') ->
          parse input pos = Returns (ParseError e, q'))).
Proof.
  intros Hp. split; [|split; [|split]].
  - intros e pos' H. apply parse_result_post in H. now destruct H as [_ H].
  - intros Hc. rewrite parse_eq. unfold parse_body. rewrite Hp. cbn [bind].
    apply read_returns in Hc. now rewrite Hc.
  - intros q Hc Hq Hc'. rewrite parse_eq. unfold parse_body. rewrite Hp. cbn [bind].
    apply read_returns in Hc, Hc'. rewrite Hc. cbn [bind].
    change (QUOTE =? "(")%char with false. change (is_digit QUOTE) with false.
    rewrite Ascii.eqb_refl. cbn zeta. rewrite Hq. cbn [bind]. now rewrite Hc'.
  - intros nodes q Hc Hchildren.
    rewrite (parse_at_open input pos p Hp Hc).
    rewrite (children_list input (S p) nodes q Hchildren). split.
    + now apply parse_list_at_nul.
    + intros c e q' Hread Hclose Hnul Hsub.
      now apply parse_list_child_error with (c := c).
Qed.

Lemma parse_errors_witness :
  parse (c_string "(+ 1") 0 = Returns (ParseError UnmatchedOpenParen, 4) /\
  parse (c_string "  ") 0 = Returns (ParseError UnexpectedEndOfInput, 2) /\
  parse [" "; QUOTE; "a"; NUL]%char 0 = Returns (ParseError UnterminatedString, 3).
Proof.
  split; [|split].
  - assert (Hp : scan is_space (c_string "(+ 1") 0 = Returns 0) by reflexivity.
    destruct (parse_errors (c_string "(+ 1") 0 0 Hp) as (_ & _ & _ & Hlist).
    apply (Hlist [SymbolNode "+"; IntNode 1] 4); [reflexivity| |reflexivity].
    apply children_more with (c := "+"%char) (pos' := 2);
      [reflexivity | discriminate | discriminate | reflexivity |].
    apply children_more with (c := " "%char) (pos' := 4);
      [reflexivity | discriminate | discriminate | reflexivity |].
    apply children_none.
  - assert (Hp : scan is_space (c_string "  ") 0 = Returns 2) by reflexivity.
    destruct (parse_errors (c_string "  ") 0 2 Hp) as (_ & Hend & _).
    apply Hend. reflexivity.
  - assert (Hp : scan is_space [" "; QUOTE; "a"; NUL]%char 0 = Returns 1) by reflexivity.
    destruct (parse_errors [" "; QUOTE; "a"; NUL]%char 0 1 Hp) as (_ & _ & Hstring & _).
    apply Hstring; reflexivity.
Defined.

(** C7.  The code does not return the unmatched parenthesis whenever the
    end of input is met inside an opened list: the list loop tests for the
    closing parenthesis and for NUL before white space is skipped, so when
    white space stands between the opening parenthesis, or the last
    complete child, and the NUL, the nested call is made, skips the white
    space, finds the NUL and returns the unexpected end of input, which
    the loop hands up.  The line the driver reads for a lone opening
    parenthesis is such an input. *)
Theorem end_of_input_after_space_in_list (input : list ascii) (pos p : nat)
        (nodes : list ast_node) (q q' : nat) :
  scan is_space input pos = Returns p ->
  nth_error input p = Some "("%char ->
  children input (S p) nodes q ->
  scan is_space input q = Returns q' ->
  q < q' ->
  nth_error input q' = Some NUL ->
  parse input pos = Returns (ParseError UnexpectedEndOfInput, q') /\
  parse input pos <> Returns (ParseError UnmatchedOpenParen, q').
Proof.
  intros Hp Hopen Hchildren Hq Hlt Hnul.
  assert (H : parse input pos = Returns (ParseError UnexpectedEndOfInput, q')).
  { rewrite (parse_at_open input pos p Hp Hopen).
    rewrite (children_list input (S p) nodes q Hchildren).
    pose proof (scan_bounds _ _ _ _ Hq) as Hb.
    destruct (nth_error input q) as [c|] eqn:Hc.
    2: { apply nth_error_None in Hc. lia. }
    pose proof (scan_first _ _ _ _ _ Hq Hc) as Hfirst.
    destruct (is_space c) eqn:Hspace; [|lia].
    apply parse_list_child_error with (c := c).
    - assumption.
    - intros ->. discriminate.
    - intros ->. discriminate.
    - rewrite parse_eq. unfold parse_body. rewrite Hq. cbn [bind].
      apply read_returns in Hnul. now rewrite Hnul. }
  split; [assumption|]. rewrite H. discriminate.
Qed.

Lemma end_of_input_after_space_in_list_witness :
  parse ["("; LF; NUL]%char 0 = Returns (ParseError UnexpectedEndOfInput, 2) /\
  parse ["("; LF; NUL]%char 0 <> Returns (ParseError UnmatchedOpenParen, 2).
Proof.
  apply (end_of_input_after_space_in_list ["("; LF; NUL]%char 0 0 [] 1 2);
    try reflexivity.
  - apply children_none.
  - lia.
Defined.

(** C8.  The cursor does move past the end of the input: the scan of the
    symbol branch does not test for NUL.  On the text [x] held in an array
    of two characters it reads past the array; on the same text with other
    characters behind its NUL, as in the line buffer the driver uses again,
    [parse] succeeds with the cursor at 2 while the input ends at 1. *)
Theorem symbol_scan_passes_terminator :
  parse (c_string "x") 0 = Undefined /\
  parse ("x" :: NUL :: list_ascii_of_string " 1 2)")%char 0
    = Returns (ParseSuccess (SymbolNode "x"), 2) /\
  strlen ("x" :: NUL :: list_ascii_of_string " 1 2)")%char = 1.
Proof. repeat split; reflexivity. Qed.

(** C10.  When the first character at or after the cursor that is no white
    space is a closing parenthesis, [parse] returns no error: it succeeds
    with the symbol of empty text and leaves the cursor on the
    parenthesis. *)
Theorem close_paren_is_empty_symbol (before spaces after : list ascii) :
  forallb is_space spaces = true ->
  parse (before ++ spaces ++ ")"%char :: after) (List.length before)
  = Returns (ParseSuccess (SymbolNode ""), List.length before + List.length spaces).
Proof.
  intros Hspaces. rewrite parse_eq. unfold parse_body.
  rewrite scan_at by (assumption || reflexivity). cbn [bind].
  pose proof (read_at before spaces after ")"%char) as Hc.
  rewrite (proj2 (read_returns _ _ _) Hc). cbn [bind].
  change (")" =? "(")%char with false. change (is_digit ")") with false.
  change (")" =? QUOTE)%char with false. change (")" =? NUL)%char with false.
  cbn [negb]. cbn zeta.
  rewrite (scan_stop in_symbol _ _ _ Hc) by reflexivity. cbn [bind].
  rewrite Nat.sub_diag.
  now destruct (skipn _ _).
Qed.

Lemma close_paren_is_empty_symbol_witness :
  parse ([] ++ [" "; TAB]%char ++ ")"%char :: [NUL]) 0
  = Returns (ParseSuccess (SymbolNode ""), 2).
Proof.
  apply (close_paren_is_empty_symbol [] [" "; TAB]%char [NUL]). reflexivity.
Defined.

End ParserClaims.

(** * Further properties of the evaluator *)

Section EvaluatorFurther.

Local Open Scope Z_scope.

(** Induction on a tree with the children of a list at hand. *)
Lemma ast_node_nested_ind (P : ast_node -> Prop) :
  (forall v, P (IntNode v)) ->
  (forall name, P (SymbolNode name)) ->
  (forall s, P (StringNode s)) ->
  (forall items, Forall P items -> P (ListNode items)) ->
  forall node, P node.
Proof.
  intros Hint Hsymbol Hstring Hlist. fix IH 1.
  intros [v|name|s|items]; [apply Hint | apply Hsymbol | apply Hstring |].
  apply Hlist. induction items as [|item items IHitems]; constructor.
  - apply IH.
  - exact IHitems.
Qed.

(** *** What the loops return, read backwards *)

Lemma add_loop_inv args : forall sum r,
  add_loop eval_ast_node args sum = Returns r ->
  match r with
  | Success val =>
      exists vs, eval_ints args vs /\
                 val = IntValue (fold_left (fun s v => int_wrap (s + v)) vs sum)
  | Error e =>
      e = TypeMismatchInt \/
      exists arg, In arg args /\ eval_ast_node arg = Returns (Error e)
  end.
Proof.
  induction args as [|arg args IH]; intros sum r H; cbn [add_loop] in H.
  - inversion H; subst. exists []. split; [constructor | reflexivity].
  - apply bind_returns in H as (arg_result & Harg & H).
    destruct arg_result as [[v|s]|e].
    + apply IH in H. destruct r as [val|e].
      * destruct H as (vs & Hvs & ->). exists (v :: vs).
        split; [now constructor | reflexivity].
      * destruct H as [-> | (a & Hin & Ha)]; [now left | right].
        exists a. split; [now right | assumption].
    + inversion H; subst. now left.
    + inversion H; subst. right. exists arg. split; [now left | assumption].
Qed.

Lemma sub_loop_inv args : forall diff r,
  sub_loop eval_ast_node args diff = Returns r ->
  match r with
  | Success val =>
      exists vs, eval_ints args vs /\
                 val = IntValue (fold_left (fun d v => int_wrap (d - v)) vs diff)
  | Error e =>
      e = TypeMismatchInt \/
      exists arg, In arg args /\ eval_ast_node arg = Returns (Error e)
  end.
Proof.
  induction args as [|arg args IH]; intros diff r H; cbn [sub_loop] in H.
  - inversion H; subst. exists []. split; [constructor | reflexivity].
  - apply bind_returns in H as (arg_result & Harg & H).
    destruct arg_result as [[v|s]|e].
    + apply IH in H. destruct r as [val|e].
      * destruct H as (vs & Hvs & ->). exists (v :: vs).
        split; [now constructor | reflexivity].
      * destruct H as [-> | (a & Hin & Ha)]; [now left | right].
        exists a. split; [now right | assumption].
    + inversion H; subst. now left.
    + inversion H; subst. right. exists arg. split; [now left | assumption].
Qed.

Lemma sub_op_inv args r :
  sub_op eval_ast_node args = Returns r ->
  match r with
  | Success val =>
      exists first rest v vs,
        args = first :: rest /\
        eval_ast_node first = Returns (Success (IntValue v)) /\
        eval_ints rest vs /\
        val = IntValue (fold_left (fun d w => int_wrap (d - w)) vs v)
  | Error e =>
      e = TypeMismatchInt \/
      exists arg, In arg args /\ eval_ast_node arg = Returns (Error e)
  end.
Proof.
  destruct args as [|first rest]; cbn [sub_op]; intros H; [discriminate|].
  apply bind_returns in H as (arg_result & Hfirst & H).
  destruct arg_result as [[v|s]|e].
  - apply sub_loop_inv in H. destruct r as [val|e].
    + destruct H as (vs & Hvs & ->). now exists first, rest, v, vs.
    + destruct H as [-> | (a & Hin & Ha)]; [now left | right].
      exists a. split; [now right | assumption].
  - inversion H; subst. now left.
  - inversion H; subst. right. exists first. split; [now left | assumption].
Qed.

Lemma concat_length_loop_inv args : forall total x,
  concat_length_loop eval_ast_node args total = Returns x ->
  match x with
  | inr _ => exists ss, eval_strings args ss
  | inl (Success _) => False
  | inl (Error e) =>
      e = TypeMismatchString \/
      exists arg, In arg args /\ eval_ast_node arg = Returns (Error e)
  end.
Proof.
  induction args as [|arg args IH]; intros total x H; cbn [concat_length_loop] in H.
  - inversion H; subst. exists []. constructor.
  - apply bind_returns in H as (arg_result & Harg & H).
    destruct arg_result as [[v|s]|e].
    + inversion H; subst. now left.
    + apply IH in H. destruct x as [[val|e]|n].
      * assumption.
      * destruct H as [-> | (a & Hin & Ha)]; [now left | right].
        exists a. split; [now right | assumption].
      * destruct H as (ss & Hss). exists (s :: ss). now constructor.
    + inversion H; subst. right. exists arg. split; [now left | assumption].
Qed.

Lemma concat_op_inv args r :
  concat_op eval_ast_node args = Returns r ->
  match r with
  | Success val =>
      exists ss, eval_strings args ss /\ val = StringValue (String.concat "" ss)
  | Error e =>
      e = TypeMismatchString \/
      exists arg, In arg args /\ eval_ast_node arg = Returns (Error e)
  end.
Proof.
  unfold concat_op. intros H.
  apply bind_returns in H as (checked & Hcheck & H).
  apply concat_length_loop_inv in Hcheck.
  destruct checked as [[val|e]|n].
  - contradiction.
  - inversion H; subst. assumption.
  - destruct Hcheck as (ss & Hss).
    rewrite (concat_copy_loop_strings args ss Hss) in H. cbn in H.
    inversion H; subst. now exists ss.
Qed.

(** The branch of a list whose first child is a symbol. *)
Lemma eval_operator name args :
  eval_ast_node (ListNode (SymbolNode name :: args)) =
  if (name =? "+")%string then add_loop eval_ast_node args 0
  else if (name =? "-")%string then sub_op eval_ast_node args
  else if (name =? "concat")%string then concat_op eval_ast_node args
  else Returns (Error UnknownOperator).
Proof. reflexivity. Qed.

(** *** Integers and texts that stay well formed *)

Lemma fold_add_ok vs : forall sum,
  int_ok sum -> int_ok (fold_left (fun s v => int_wrap (s + v)) vs sum).
Proof.
  induction vs as [|v vs IH]; intros sum Hsum; cbn [fold_left].
  - assumption.
  - apply IH, int_wrap_range.
Qed.

Lemma fold_sub_ok vs : forall diff,
  int_ok diff -> int_ok (fold_left (fun d v => int_wrap (d - v)) vs diff).
Proof.
  induction vs as [|v vs IH]; intros diff Hdiff; cbn [fold_left].
  - assumption.
  - apply IH, int_wrap_range.
Qed.

Lemma list_ascii_of_string_append (a b : string) :
  list_ascii_of_string (a ++ b) = (list_ascii_of_string a ++ list_ascii_of_string b)%list.
Proof. induction a as [|c a IH]; cbn; [reflexivity | now rewrite IH]. Qed.

Lemma string_text_ok_append (a b : string) :
  string_text_ok a -> string_text_ok b -> string_text_ok (a ++ b).
Proof.
  unfold string_text_ok. intros Ha Hb.
  rewrite list_ascii_of_string_append. apply Forall_app. now split.
Qed.

Lemma string_text_ok_concat (ss : list string) :
  Forall string_text_ok ss -> string_text_ok (String.concat "" ss).
Proof.
  induction 1 as [|s ss Hs _ IH].
  - constructor.
  - rewrite concat_cons. now apply string_text_ok_append.
Qed.

Lemma literals_ok_list (items : list ast_node) :
  literals_ok (ListNode items) <-> Forall literals_ok items.
Proof.
  unfold literals_ok. cbn [int_literals string_literals].
  rewrite !Forall_flat_map. rewrite !Forall_forall.
  split.
  - intros [Hint Hstring] item Hin. split; [now apply Hint | now apply Hstring].
  - intros H. split; intros item Hin; now apply (H item Hin).
Qed.

(** The values of arguments that evaluate to strings, one by one. *)
Lemma eval_strings_values (Q : string -> Prop) args ss :
  eval_strings args ss ->
  Forall (fun arg => forall s, eval_ast_node arg = Returns (Success (StringValue s)) -> Q s) args ->
  Forall Q ss.
Proof.
  induction 1 as [|arg s args ss Harg _ IH]; intros Hall.
  - constructor.
  - inversion Hall; subst. constructor; auto.
Qed.

(** *** The properties *)

(** X1.  The operator [-] applied to a first argument that evaluates to the
    [int] [v] and to further arguments that evaluate to the integers [vs]
    returns [v] less the sum of [vs], wrapped to 32 bits; with one argument
    it returns that argument. *)
Theorem minus_operator first rest v vs :
  INT_MIN <= v <= INT_MAX ->
  eval_ast_node first = Returns (Success (IntValue v)) ->
  eval_ints rest vs ->
  eval_ast_node (ListNode (SymbolNode "-" :: first :: rest))
    = Returns (Success (IntValue (int_wrap (v - sum_of vs)))) /\
  eval_ast_node (ListNode [SymbolNode "-"; first]) = Returns (Success (IntValue v)).
Proof.
  intros Hv Hfirst Hrest. split.
  - rewrite eval_operator. cbn [String.eqb Ascii.eqb Bool.eqb sub_op].
    rewrite Hfirst. cbn [bind].
    rewrite <- (int_wrap_small v Hv) at 1.
    rewrite <- (app_nil_r rest).
    now rewrite (sub_loop_ints rest vs Hrest).
  - rewrite eval_operator. cbn [String.eqb Ascii.eqb Bool.eqb sub_op].
    now rewrite Hfirst.
Qed.

Lemma minus_operator_witness :
  eval_ast_node (ListNode (SymbolNode "-" :: IntNode 10 :: [IntNode 1; IntNode 2]))
    = Returns (Success (IntValue 7)) /\
  eval_ast_node (ListNode [SymbolNode "-"; IntNode 10]) = Returns (Success (IntValue 10)).
Proof.
  apply (minus_operator (IntNode 10) [IntNode 1; IntNode 2] 10 [1; 2]).
  - unfold INT_MIN, INT_MAX. lia.
  - reflexivity.
  - repeat constructor.
Defined.

(** X2.  The operator [-] reports an argument that evaluates to a string
    with the message of [+]: after arguments that evaluate to integers the
    result is the error [Non-integer argument to +]. *)
Theorem minus_type_mismatch pre vs arg s rest :
  eval_ints pre vs ->
  eval_ast_node arg = Returns (Success (StringValue s)) ->
  eval_ast_node (ListNode (SymbolNode "-" :: pre ++ arg :: rest))
    = Returns (Error "Non-integer argument to +").
Proof.
  intros Hpre Harg. rewrite eval_operator. cbn [String.eqb Ascii.eqb Bool.eqb].
  destruct Hpre as [|first v pre vs Hfirst Hpre]; cbn [app sub_op].
  - now rewrite Harg.
  - rewrite Hfirst. cbn [bind]. clear Hfirst. revert v.
    induction Hpre as [|a w pre vs Ha _ IH]; intros v; cbn [app sub_loop].
    + now rewrite Harg.
    + rewrite Ha. cbn [bind]. apply IH.
Qed.

Lemma minus_type_mismatch_witness :
  eval_ast_node
    (ListNode (SymbolNode "-" :: [IntNode 5] ++ StringNode "s" :: [IntNode 1])%list)
    = Returns (Error "Non-integer argument to +").
Proof.
  apply (minus_type_mismatch [IntNode 5] [5] (StringNode "s") "s" [IntNode 1]).
  - repeat constructor.
  - reflexivity.
Defined.



Lemma eval_keeps_ok (node : ast_node) (val : value) :
  literals_ok node ->
  eval_ast_node node = Returns (Success val) ->
  value_ok val.
Proof.
  revert val. induction node as [v|name|s|items IH] using ast_node_nested_ind;
    intros val Hlit H.
  - inversion H; subst. destruct Hlit as [Hint _]. now inversion Hint.
  - discriminate.
  - inversion H; subst. destruct Hlit as [_ Hstring]. now inversion Hstring.
  - destruct items as [|op args]; [discriminate|].
    apply literals_ok_list in Hlit.
    inversion IH as [|? ? _ IHargs]; subst.
    inversion Hlit as [|? ? _ Hargs]; subst.
    assert (Hvalues : Forall (fun arg => forall val,
                                  eval_ast_node arg = Returns (Success val) ->
                                  value_ok val) args).
    { rewrite Forall_forall in *. intros arg Hin val' Hval.
      now apply (IHargs arg Hin val' (Hargs arg Hin)). }
    clear IH IHargs Hlit Hargs.
    destruct op as [v|name|s|items]; try discriminate.
    rewrite eval_operator in H.
    destruct (name =? "+")%string.
    { apply add_loop_inv in H. destruct H as (vs & _ & ->).
      apply fold_add_ok. unfold int_ok, INT_MIN, INT_MAX. lia. }
    destruct (name =? "-")%string.
    { apply sub_op_inv in H.
      destruct H as (first & rest & v & vs & -> & Hfirst & _ & ->).
      apply fold_sub_ok. rewrite Forall_forall in Hvalues.
      apply (Hvalues first (or_introl eq_refl) (IntValue v) Hfirst). }
    destruct (name =? "concat")%string.
    { apply concat_op_inv in H. destruct H as (ss & Hss & ->).
      apply string_text_ok_concat.
      apply (eval_strings_values string_text_ok args ss Hss).
      rewrite Forall_forall in *. intros arg Hin s Hs.
      now apply (Hvalues arg Hin (StringValue s)). }
    discriminate.
Qed.

(** X5.  When the integer literals of a tree are [int]s and its string
    literals hold no double quote and no NUL, so does every value the tree
    evaluates to: an integer result is an [int], a string result holds no
    double quote and no NUL. *)
Theorem eval_value_ok (node : ast_node) (val : value) :
  literals_ok node ->
  eval_ast_node node = Returns (Success val) ->
  value_ok val.
Proof. apply eval_keeps_ok. Qed.

Lemma eval_value_ok_witness :
  value_ok (IntValue INT_MIN).
Proof.
  apply (eval_value_ok (ListNode [SymbolNode "+"; IntNode 2147483647; IntNode 1])).
  - split; cbn; repeat constructor; unfold INT_MIN, INT_MAX; lia.
  - reflexivity.
Defined.

(** *** Where evaluation is defined *)

Lemma add_loop_defined args :
  Forall (fun arg => exists r, eval_ast_node arg = Returns r) args ->
  forall sum, exists r, add_loop eval_ast_node args sum = Returns r.
Proof.
  induction 1 as [|arg args [r Harg] _ IH]; intros sum; cbn [add_loop].
  - eauto.
  - rewrite Harg. cbn [bind]. destruct r as [[v|s]|e]; eauto.
Qed.

Lemma sub_loop_defined args :
  Forall (fun arg => exists r, eval_ast_node arg = Returns r) args ->
  forall diff, exists r, sub_loop eval_ast_node args diff = Returns r.
Proof.
  induction 1 as [|arg args [r Harg] _ IH]; intros diff; cbn [sub_loop].
  - eauto.
  - rewrite Harg. cbn [bind]. destruct r as [[v|s]|e]; eauto.
Qed.

Lemma concat_length_loop_defined args :
  Forall (fun arg => exists r, eval_ast_node arg = Returns r) args ->
  forall total, exists x, concat_length_loop eval_ast_node args total = Returns x.
Proof.
  induction 1 as [|arg args [r Harg] _ IH]; intros total; cbn [concat_length_loop].
  - eauto.
  - rewrite Harg. cbn [bind]. destruct r as [[v|s]|e]; eauto.
Qed.

(** The second loop of [concat] runs only after the first has seen a string
    in every argument, so it never reads a result of another kind. *)
Lemma concat_op_defined args :
  Forall (fun arg => exists r, eval_ast_node arg = Returns r) args ->
  exists r, concat_op eval_ast_node args = Returns r.
Proof.
  intros Hargs. unfold concat_op.
  destruct (concat_length_loop_defined args Hargs 0%nat) as [x Hx].
  rewrite Hx. cbn [bind].
  apply concat_length_loop_inv in Hx.
  destruct x as [[val|e]|n]; [contradiction | eauto |].
  destruct Hx as (ss & Hss).
  rewrite (concat_copy_loop_strings args ss Hss). cbn [bind]. eauto.
Qed.

(** X4.  On a tree in which no list is the operator [-] alone,
    [eval_ast_node] returns a result, a value or an error: it reads no
    child past the end of a list, and the second loop of [concat] reads no
    result of the wrong kind.  Integer overflow is no part of this: the
    embedding wraps where C leaves the overflow undefined. *)
Theorem eval_defined (node : ast_node) :
  arity_ok node = true -> exists r, eval_ast_node node = Returns r.
Proof.
  induction node as [v|name|s|items IH] using ast_node_nested_ind; intros Hok.
  - cbn. eauto.
  - cbn. eauto.
  - cbn. eauto.
  - cbn [arity_ok] in Hok. apply andb_true_iff in Hok as [Hminus Hitems].
    destruct items as [|op args]; [cbn; eauto|].
    cbn [forallb] in Hitems. apply andb_true_iff in Hitems as [_ Hargs].
    inversion IH as [|? ? _ IHargs]; subst.
    assert (Hdefined : Forall (fun arg => exists r, eval_ast_node arg = Returns r) args).
    { rewrite Forall_forall in *. rewrite forallb_forall in Hargs.
      intros arg Hin. apply (IHargs arg Hin), (Hargs arg Hin). }
    destruct op as [v|name|s|items]; try (cbn; eauto; fail).
    rewrite eval_operator.
    destruct (name =? "+")%string; [now apply add_loop_defined|].
    destruct (name =? "-")%string eqn:Hname.
    { destruct args as [|first rest].
      - discriminate Hminus.
      - cbn [sub_op]. inversion Hdefined as [|? ? [r Hfirst] Hrest]; subst.
        rewrite Hfirst. cbn [bind]. destruct r as [[v|s]|e]; eauto.
        now apply sub_loop_defined. }
    destruct (name =? "concat")%string; [now apply concat_op_defined|].
    eauto.
Qed.

Lemma eval_defined_witness :
  exists r,
    eval_ast_node
      (ListNode [SymbolNode "concat"; StringNode "a";
                 ListNode [SymbolNode "-"; IntNode 1]]) = Returns r.
Proof.
  apply (eval_defined
           (ListNode [SymbolNode "concat"; StringNode "a";
                      ListNode [SymbolNode "-"; IntNode 1]])).
  reflexivity.
Defined.

End EvaluatorFurther.

(** * Further properties of the parser *)

Section ParserFurther.

(** *** Fuel *)

Lemma parse_fuel_le input fuel fuel' pos :
  fuel <= fuel' ->
  parse_fuel fuel input pos <> OutOfFuel ->
  parse_fuel fuel' input pos = parse_fuel fuel input pos.
Proof.
  induction 1 as [|fuel' Hle IH]; intros Hfuel.
  - reflexivity.
  - rewrite <- (IH Hfuel). apply (proj1 (parse_fuel_mono input fuel')).
    now rewrite (IH Hfuel).
Qed.

(** Whatever the fuel, a result is the result of [parse]. *)
Lemma parse_fuel_returns input fuel pos out :
  parse_fuel fuel input pos = Returns out -> parse input pos = Returns out.
Proof.
  intros H. unfold parse.
  destruct (Nat.le_gt_cases fuel (2 * List.length input + 2)) as [Hle | Hgt].
  - rewrite (parse_fuel_le input fuel _ pos Hle); [assumption | congruence].
  - rewrite <- H. symmetry. apply parse_fuel_le; [lia|].
    apply parse_total.
Qed.

(** X6.  [parse] terminates on every array and cursor: each child read
    inside a list moves the cursor forward, so twice the distance from the
    cursor to the end of the array, plus one, bounds the depth of the calls,
    and with that much fuel or more the embedding gives the result of
    [parse], which is never the lack of fuel. *)
Theorem parse_fuel_independent (input : list ascii) (pos fuel : nat) :
  2 * (List.length input - pos) < fuel ->
  parse_fuel fuel input pos = parse input pos /\
  parse input pos <> OutOfFuel.
Proof.
  intros Hfuel. split; [|apply parse_total].
  pose proof (proj1 (parse_fuel_enough input fuel) pos Hfuel) as Hown.
  unfold parse.
  destruct (Nat.le_gt_cases fuel (2 * List.length input + 2)) as [Hle | Hgt].
  - symmetry. now apply parse_fuel_le.
  - apply parse_fuel_le; [lia|]. apply parse_total.
Qed.

Lemma parse_fuel_independent_witness :
  parse_fuel 5 (c_string "(7)") 2 = parse (c_string "(7)") 2 /\
  parse (c_string "(7)") 2 <> OutOfFuel.
Proof. apply (parse_fuel_independent (c_string "(7)") 2 5). cbn. lia. Defined.

(** X7.  When [parse] returns, with a node or with an error, the cursor has
    not moved back and is inside the array or at its end; and when it
    returns a node the cursor has moved forward, unless the character it
    started at is a closing parenthesis. *)
Theorem parse_cursor (input : list ascii) (pos : nat) (r : parse_result) (pos' : nat) :
  parse input pos = Returns (r, pos') ->
  pos <= pos' <= List.length input /\
  (forall node c,
      r = ParseSuccess node -> nth_error input pos = Some c -> c <> ")"%char ->
      pos < pos').
Proof.
  intros H. apply parse_result_post in H. destruct H as [Hle H].
  destruct r as [node|e].
  - destruct H as (Hlen & _ & Hmove). split; [lia|].
    intros node' c _ Hc Hclose. now apply (Hmove c).
  - destruct H as [_ Hnul]. apply read_in_bounds in Hnul. split; [lia|].
    intros node c Hr. discriminate.
Qed.

Lemma parse_cursor_witness :
  0 <= 4 <= List.length (c_string "  12 x") /\ 0 < 4.
Proof.
  assert (H : parse (c_string "  12 x") 0 = Returns (ParseSuccess (IntNode 12), 4))
    by reflexivity.
  destruct (parse_cursor _ _ _ _ H) as [Hbounds Hmove].
  split; [exact Hbounds|].
  apply (Hmove (IntNode 12) " "%char); [reflexivity | reflexivity | discriminate].
Defined.

(** *** Arrays that share a prefix *)

Lemma same_prefix_le m n a b : m <= n -> same_prefix n a b -> same_prefix m a b.
Proof.
  unfold same_prefix. intros Hle H.
  rewrite <- (Nat.min_l m n Hle), <- !firstn_firstn. now rewrite H.
Qed.

Lemma same_prefix_read n a b i c :
  same_prefix n a b -> i < n -> nth_error a i = Some c -> nth_error b i = Some c.
Proof.
  unfold same_prefix. intros H Hi Hc.
  assert (Heq : nth_error (firstn n b) i = nth_error (firstn n a) i) by now rewrite H.
  rewrite !nth_error_firstn in Heq. apply Nat.ltb_lt in Hi. rewrite Hi in Heq.
  congruence.
Qed.

Lemma same_prefix_skipn pos k a b :
  same_prefix (pos + k) a b -> firstn k (skipn pos a) = firstn k (skipn pos b).
Proof.
  unfold same_prefix. intros H. rewrite !firstn_skipn_comm. now rewrite H.
Qed.

(** A run and the character after it, seen from [pos] in one array, are
    seen from [pos] in the other. *)
Lemma same_prefix_run a b pos run c rest :
  skipn pos a = (run ++ c :: rest)%list ->
  same_prefix (S (pos + List.length run)) a b ->
  exists rest', skipn pos b = (run ++ c :: rest')%list.
Proof.
  intros Hsplit Hsame.
  assert (H : firstn (S (List.length run)) (skipn pos b) = (run ++ [c])%list).
  { rewrite <- (same_prefix_skipn pos (S (List.length run)) a b).
    - rewrite Hsplit. replace (S (List.length run)) with (List.length run + 1) by lia.
      rewrite firstn_app_2. reflexivity.
    - now rewrite Nat.add_succ_r. }
  exists (skipn (S (List.length run)) (skipn pos b)).
  rewrite <- (firstn_skipn (S (List.length run)) (skipn pos b)) at 1.
  rewrite H, <- app_assoc. reflexivity.
Qed.

Lemma scan_local cond a b pos q :
  scan cond a pos = Returns q -> same_prefix (S q) a b ->
  scan cond b pos = Returns q.
Proof.
  intros H Hsame.
  apply scan_inv in H as (run & c & rest & Hsplit & Hrun & Hc & -> & _).
  destruct (same_prefix_run a b pos run c rest Hsplit Hsame) as [rest' Hb].
  unfold scan. rewrite Hb. now apply scan_suffix_run.
Qed.

Lemma digits_local a b pos v q :
  digits a pos = Returns (v, q) -> same_prefix (S q) a b ->
  digits b pos = Returns (v, q).
Proof.
  unfold digits. intros H Hsame.
  apply digits_suffix_inv in H as (run & c & rest & Hsplit & Hrun & Hc & -> & ->).
  destruct (same_prefix_run a b pos run c rest Hsplit Hsame) as [rest' Hb].
  rewrite Hb. now apply digits_suffix_run.
Qed.

Lemma strndup_firstn src : forall n, strndup (firstn n src) n = strndup src n.
Proof.
  induction src as [|c src IH]; intros [|n]; cbn; try reflexivity.
  destruct (c =? NUL)%char; [reflexivity | now rewrite IH].
Qed.

Lemma strndup_local a b pos n m :
  same_prefix m a b -> pos + n <= m ->
  strndup (skipn pos a) n = strndup (skipn pos b) n.
Proof.
  intros Hsame Hle.
  rewrite <- (strndup_firstn (skipn pos a)), <- (strndup_firstn (skipn pos b)).
  now rewrite (same_prefix_skipn pos n a b (same_prefix_le _ _ _ _ Hle Hsame)).
Qed.

(** *** The branches of [parse], forwards *)

Section Branches.

Variable list_rec : nat -> list ast_node -> outcome.
Variable input : list ascii.
Variables pos p : nat.
Hypothesis Hskip : scan is_space input pos = Returns p.

Lemma body_at_open :
  nth_error input p = Some "("%char ->
  parse_body list_rec input pos = list_rec (S p) [].
Proof.
  intros Hc. unfold parse_body. rewrite Hskip. cbn [bind].
  apply read_returns in Hc. now rewrite Hc.
Qed.

Lemma body_at_digit c v q :
  nth_error input p = Some c -> is_digit c = true ->
  digits input p = Returns (v, q) ->
  parse_body list_rec input pos = Returns (ParseSuccess (IntNode v), q).
Proof.
  intros Hc Hdigit Hloop. unfold parse_body. rewrite Hskip. cbn [bind].
  apply read_returns in Hc. rewrite Hc. cbn [bind].
  destruct (digit_is_plain c Hdigit) as (_ & _ & _ & Hopen & _).
  apply Ascii.eqb_neq in Hopen. rewrite Hopen, Hdigit, Hloop. reflexivity.
Qed.

Lemma body_at_quote q c' :
  nth_error input p = Some QUOTE ->
  scan in_string input (S p) = Returns q ->
  nth_error input q = Some c' ->
  parse_body list_rec input pos =
  if (c' =? NUL)%char
  then Returns (ParseError UnterminatedString, q)
  else Returns (ParseSuccess (StringNode (strndup (skipn (S p) input) (q - S p))), S q).
Proof.
  intros Hc Hq Hc'. unfold parse_body. rewrite Hskip. cbn [bind].
  apply read_returns in Hc, Hc'. rewrite Hc. cbn [bind].
  change (QUOTE =? "(")%char with false. change (is_digit QUOTE) with false.
  rewrite Ascii.eqb_refl. cbn zeta. rewrite Hq. cbn [bind]. now rewrite Hc'.
Qed.

Lemma body_at_symbol c q :
  nth_error input p = Some c ->
  c <> "("%char -> is_digit c = false -> c <> QUOTE -> c <> NUL ->
  scan in_symbol input p = Returns q ->
  parse_body list_rec input pos
  = Returns (ParseSuccess (SymbolNode (strndup (skipn p input) (q - p))), q).
Proof.
  intros Hc Hopen Hdigit Hquote Hnul Hq. unfold parse_body. rewrite Hskip. cbn [bind].
  apply read_returns in Hc. rewrite Hc. cbn [bind].
  apply Ascii.eqb_neq in Hopen, Hquote, Hnul.
  rewrite Hopen, Hdigit, Hquote, Hnul. cbn [negb]. cbn zeta.
  now rewrite Hq.
Qed.

Lemma body_at_nul :
  nth_error input p = Some NUL ->
  parse_body list_rec input pos = Returns (ParseError UnexpectedEndOfInput, p).
Proof.
  intros Hc. unfold parse_body. rewrite Hskip. cbn [bind].
  apply read_returns in Hc. now rewrite Hc.
Qed.

End Branches.

(** *** [parse] reads no further than one character past the cursor *)

Lemma reach_bounds r pos' : pos' <= reach r pos' <= S pos'.
Proof. destruct r as [[v|name|s|items]|e]; cbn; lia. Qed.

Lemma parse_fuel_local a b fuel :
  (forall pos r pos',
      parse_fuel fuel a pos = Returns (r, pos') ->
      same_prefix (reach r pos') a b ->
      parse_fuel fuel b pos = Returns (r, pos')) /\
  (forall pos items r pos',
      parse_items fuel a pos items = Returns (r, pos') ->
      same_prefix (reach r pos') a b ->
      parse_items fuel b pos items = Returns (r, pos')).
Proof.
  induction fuel as [|fuel [IHparse IHlist]].
  - split; intros; discriminate.
  - split.
    + intros pos r pos' H Hsame.
      cbn [parse_fuel] in *.
      apply parse_body_inv in H
        as (p & c & Hp & Hc &
            [[-> H] | [[Hd (v & H & ->)] | [[-> H] | [H | (-> & -> & ->)]]]]).
      * (* list *)
        pose proof (proj2 (parse_fuel_post a fuel) _ _ _ H) as Hpost.
        assert (Hreach : S p <= reach r pos').
        { pose proof (reach_bounds r pos'). destruct Hpost as [Hle Hpost].
          destruct r as [node|e]; [destruct Hpost as [Hlt _] | cbn [reach]]; lia. }
        assert (Hp' : scan is_space b pos = Returns p).
        { apply (scan_local _ a); [assumption|].
          now apply (same_prefix_le (S p) (reach r pos')). }
        rewrite (body_at_open _ b pos p Hp').
        -- now apply IHlist.
        -- apply (same_prefix_read (reach r pos') a); [assumption | lia | assumption].
      * (* integer *)
        cbn [reach] in Hsame.
        pose proof (digits_bounds _ _ _ _ _ H Hc Hd) as Hb.
        apply (body_at_digit _ b pos p) with (c := c).
        -- apply (scan_local _ a); [assumption|].
           apply (same_prefix_le (S p) (S pos')); [lia | assumption].
        -- apply (same_prefix_read (S pos') a); [assumption | lia | assumption].
        -- assumption.
        -- now apply (digits_local a).
      * (* string *)
        destruct H as (q & c' & Hq & Hc' & H).
        pose proof (scan_bounds _ _ _ _ Hq) as Hb.
        assert (Hsame' : same_prefix (S q) a b).
        { destruct H as [(_ & -> & ->) | (_ & -> & ->)]; exact Hsame. }
        assert (Hp' : scan is_space b pos = Returns p).
        { apply (scan_local _ a); [assumption|].
          apply (same_prefix_le (S p) (S q)); [lia | assumption]. }
        rewrite (body_at_quote _ b pos p Hp' q c').
        -- destruct H as [(-> & -> & ->) | (-> & -> & ->)].
           ++ reflexivity.
           ++ change (QUOTE =? NUL)%char with false. cbn iota.
              do 4 f_equal. symmetry.
              apply (strndup_local a b (S p) (q - S p) (S q)); [assumption | lia].
        -- apply (same_prefix_read (S q) a); [assumption | lia | assumption].
        -- now apply (scan_local _ a).
        -- apply (same_prefix_read (S q) a); [assumption | lia | assumption].
      * (* symbol *)
        destruct H as (Hopen & Hdigit & Hquote & Hnul & q & Hq & -> & ->).
        cbn [reach] in Hsame.
        pose proof (scan_bounds _ _ _ _ Hq) as Hb.
        assert (Hp' : scan is_space b pos = Returns p).
        { apply (scan_local _ a); [assumption|].
          apply (same_prefix_le (S p) (S q)); [lia | assumption]. }
        rewrite (body_at_symbol _ b pos p Hp' c q); try assumption.
        -- do 4 f_equal. symmetry.
           apply (strndup_local a b p (q - p) (S q)); [assumption | lia].
        -- apply (same_prefix_read (S q) a); [assumption | lia | assumption].
        -- now apply (scan_local _ a).
      * (* end of input *)
        cbn [reach] in Hsame. apply body_at_nul.
        -- now apply (scan_local _ a).
        -- apply (same_prefix_read (S p) a); [assumption | lia | assumption].
    + intros pos items r pos' H Hsame.
      pose proof (proj2 (parse_fuel_post a (S fuel)) pos items _ H) as Hpost.
      assert (Hreach : S pos <= reach r pos').
      { pose proof (reach_bounds r pos'). destruct Hpost as [Hle Hpost].
        destruct r as [node|e]; [destruct Hpost as [Hlt _] | cbn [reach]]; lia. }
      cbn [parse_items] in *.
      apply list_body_inv in H
        as (c & Hc &
            [(Hclose & Hnul & sub & q & Hsub & H) | [(-> & -> & ->) | (-> & -> & ->)]]).
      * assert (Hc' : nth_error b pos = Some c).
        { apply (same_prefix_read (reach r pos') a); [assumption | lia | assumption]. }
        unfold list_body. apply read_returns in Hc'. rewrite Hc'. cbn [bind].
        apply Ascii.eqb_neq in Hclose, Hnul. rewrite Hclose, Hnul. cbn [negb andb].
        destruct sub as [node|e].
        -- pose proof (proj2 (parse_fuel_post a fuel) _ _ _ H) as Hpost'.
           assert (Hchild : S q <= reach r pos').
           { pose proof (reach_bounds r pos'). destruct Hpost' as [Hle' Hpost'].
             destruct r as [list|e]; [destruct Hpost' as [Hlt _] | cbn [reach]]; lia. }
           rewrite (IHparse pos (ParseSuccess node) q Hsub).
           ++ cbn [bind]. now apply IHlist.
           ++ apply (same_prefix_le _ (reach r pos')); [|assumption].
              pose proof (reach_bounds (ParseSuccess node) q). lia.
        -- destruct H as [-> ->]. now rewrite (IHparse pos (ParseError e) q Hsub).
      * unfold list_body.
        rewrite (proj2 (read_returns b pos NUL)); [reflexivity|].
        apply (same_prefix_read (S pos) a); [assumption | lia | assumption].
      * unfold list_body.
        rewrite (proj2 (read_returns b pos ")"%char)); [reflexivity|].
        apply (same_prefix_read (S pos) a); [assumption | lia | assumption].
Qed.

(** X8.  [parse] reads no further than its result needs: the characters
    before the final cursor for a list and a string, and the character at
    the cursor as well for an integer, a symbol and an error.  On an array
    that holds the same characters that far it returns the same result
    with the same cursor, so what follows the first expression of a line
    plays no part in what the driver does with the line. *)
Theorem parse_local (a b : list ascii) (pos : nat) (r : parse_result) (pos' : nat) :
  parse a pos = Returns (r, pos') ->
  same_prefix (reach r pos') a b ->
  parse b pos = Returns (r, pos') /\
  (pos = 0 -> process_input b = process_input a).
Proof.
  intros H Hsame.
  assert (Hb : parse b pos = Returns (r, pos')).
  { apply parse_fuel_returns with (fuel := 2 * List.length a + 2).
    now apply (proj1 (parse_fuel_local a b _)). }
  split; [assumption|].
  intros ->. unfold process_input. now rewrite H, Hb.
Qed.

Lemma parse_local_witness :
  parse (line "(+ 1 2) (- 9") 0
    = Returns (ParseSuccess (ListNode [SymbolNode "+"; IntNode 1; IntNode 2]), 7) /\
  process_input (line "(+ 1 2) (- 9") = process_input (line "(+ 1 2)").
Proof.
  destruct (parse_local (line "(+ 1 2)") (line "(+ 1 2) (- 9") 0
              (ParseSuccess (ListNode [SymbolNode "+"; IntNode 1; IntNode 2])) 7)
    as [Hparse Hdriver]; [reflexivity | reflexivity |].
  split; [exact Hparse | now apply Hdriver].
Defined.

(** *** The literals of a parsed tree *)

Lemma horner_ok run : forall value, int_ok value -> int_ok (horner run value).
Proof.
  unfold horner. induction run as [|c run IH]; intros value Hvalue; cbn [fold_left].
  - assumption.
  - apply IH, int_wrap_range.
Qed.

Lemma string_text input pos q :
  scan in_string input pos = Returns q ->
  string_text_ok (strndup (skipn pos input) (q - pos)).
Proof.
  intros H. apply scan_inv in H as (run & c & rest & Hsplit & Hrun & _ & -> & _).
  rewrite Hsplit, Nat.add_comm, Nat.add_sub, strndup_run.
  unfold string_text_ok. rewrite list_ascii_of_string_of_list_ascii.
  apply (text_of_chars in_string) in Hrun.
  rewrite Forall_forall in *. intros c0 Hin. destruct (Hrun c0 Hin) as [Hc0 Hnul].
  split; [|assumption].
  unfold in_string in Hc0. apply andb_true_iff in Hc0 as [Hquote _].
  now apply negb_true_iff, Ascii.eqb_neq in Hquote.
Qed.

Lemma parse_fuel_literals input fuel :
  (forall pos node pos',
      parse_fuel fuel input pos = Returns (ParseSuccess node, pos') ->
      literals_ok node) /\
  (forall pos items node pos',
      Forall literals_ok items ->
      parse_items fuel input pos items = Returns (ParseSuccess node, pos') ->
      literals_ok node).
Proof.
  induction fuel as [|fuel [IHparse IHlist]].
  - split; intros; discriminate.
  - split.
    + intros pos node pos' H. cbn [parse_fuel] in H.
      apply parse_body_inv in H
        as (p & c & Hp & Hc &
            [[-> H] | [[Hd (v & H & Hr)] | [[-> H] | [H | (_ & Hr & _)]]]]);
        try discriminate.
      * apply (IHlist (S p) [] node pos'); [constructor | assumption].
      * injection Hr as ->. unfold digits in H.
        apply digits_suffix_inv in H as (run & _ & _ & _ & _ & _ & _ & ->).
        split; [|constructor]. constructor; [|constructor].
        apply horner_ok. unfold int_ok, INT_MIN, INT_MAX. lia.
      * destruct H as (q & c' & Hq & _ & [(_ & Hr & _) | (_ & _ & Hr)]);
          [discriminate|].
        injection Hr as ->. split; [constructor|].
        constructor; [|constructor]. exact (string_text input (S p) q Hq).
      * destruct H as (_ & _ & _ & _ & q & _ & _ & Hr). injection Hr as ->.
        split; constructor.
    + intros pos items node pos' Hitems H. cbn [parse_items] in H.
      apply list_body_inv in H
        as (c & Hc &
            [(_ & _ & sub & q & Hsub & H) | [(_ & Hr & _) | (_ & Hr & _)]]);
        try discriminate.
      * destruct sub as [child|e]; [|destruct H; discriminate].
        apply (IHlist q (items ++ [child])%list node pos'); [|assumption].
        apply Forall_app. split; [assumption|].
        constructor; [|constructor]. now apply (IHparse pos child q).
      * injection Hr as ->. now apply literals_ok_list.
Qed.

(** X9.  Every integer literal of a tree that [parse] returns is an [int],
    and every string literal holds no double quote and no NUL; hence the
    driver never hands [print_value] an integer outside the [int] range or
    a string with a double quote or a NUL in it. *)
Theorem parsed_values_ok (input : list ascii) :
  (forall pos node pos',
      parse input pos = Returns (ParseSuccess node, pos') -> literals_ok node) /\
  (forall val, process_input input = Returns (inr val) -> value_ok val).
Proof.
  split.
  - intros pos node pos'. unfold parse.
    apply (proj1 (parse_fuel_literals input (2 * List.length input + 2))).
  - intros val H. unfold process_input in H.
    apply bind_returns in H as ([parsed pos'] & Hparse & H).
    destruct parsed as [node|e]; [|discriminate].
    apply bind_returns in H as (eval_result & Heval & H).
    destruct eval_result as [v|e]; [|discriminate].
    injection H as <-.
    apply (eval_keeps_ok node); [|assumption].
    exact (proj1 (parse_fuel_literals input (2 * List.length input + 2))
                 0 node pos' Hparse).
Qed.

Lemma parsed_values_ok_witness :
  literals_ok (ListNode [SymbolNode "+"; IntNode 1; StringNode "a"]) /\
  value_ok (IntValue 3).
Proof.
  destruct (parsed_values_ok (line ("(+ 4294967297 " ++ quoted "a" ++ ")")))
    as [Hliterals _].
  destruct (parsed_values_ok (line "(+ 1 2)")) as [_ Hvalue].
  split.
  - apply (Hliterals 0 _ 18). reflexivity.
  - apply Hvalue. reflexivity.
Defined.

(** *** Tokens at a known place *)

Lemma digit_run_at (before spaces ds after : list ascii) (c : ascii) :
  forallb is_space spaces = true ->
  ds <> [] -> forallb is_digit ds = true -> is_digit c = false ->
  parse (before ++ spaces ++ ds ++ c :: after) (List.length before)
  = Returns (ParseSuccess (IntNode (horner ds 0)),
             List.length before + List.length spaces + List.length ds).
Proof.
  intros Hspaces Hne Hds Hc.
  destruct ds as [|d ds]; [contradiction|].
  assert (Hd : is_digit d = true) by (cbn in Hds; now apply andb_true_iff in Hds).
  destruct (digit_is_plain d Hd) as (Hspace & _).
  rewrite parse_eq.
  apply body_at_digit with (p := List.length before + List.length spaces) (c := d).
  - apply scan_at; assumption.
  - apply (read_at before spaces (ds ++ c :: after) d).
  - assumption.
  - unfold digits.
    replace (before ++ spaces ++ (d :: ds) ++ c :: after)%list
      with ((before ++ spaces) ++ (d :: ds) ++ c :: after)%list
      by now rewrite <- app_assoc.
    rewrite <- length_app, skipn_at, digits_suffix_run by assumption.
    reflexivity.
Qed.

Lemma symbol_run_at (before spaces run after : list ascii) (c d : ascii) :
  forallb is_space spaces = true ->
  is_space c = false ->
  c <> "("%char -> is_digit c = false -> c <> QUOTE -> c <> NUL ->
  forallb in_symbol (c :: run) = true -> in_symbol d = false ->
  parse (before ++ spaces ++ (c :: run) ++ d :: after) (List.length before)
  = Returns (ParseSuccess (SymbolNode (string_of_list_ascii (text_of (c :: run)))),
             List.length before + List.length spaces + S (List.length run)).
Proof.
  intros Hspaces Hspace Hopen Hdigit Hquote Hnul Hrun Hd.
  rewrite parse_eq.
  rewrite (body_at_symbol _ _ (List.length before)
             (List.length before + List.length spaces)) with
      (c := c) (q := List.length before + List.length spaces + S (List.length run));
    try assumption.
  - do 4 f_equal.
    replace (before ++ spaces ++ (c :: run) ++ d :: after)%list
      with ((before ++ spaces) ++ (c :: run) ++ d :: after)%list
      by now rewrite <- app_assoc.
    rewrite <- length_app, skipn_at.
    rewrite Nat.add_comm, Nat.add_sub.
    apply (strndup_run (c :: run)).
  - apply scan_at; assumption.
  - apply (read_at before spaces (run ++ d :: after) c).
  - replace (before ++ spaces ++ (c :: run) ++ d :: after)%list
      with ((before ++ spaces) ++ (c :: run) ++ d :: after)%list
      by now rewrite <- app_assoc.
    rewrite <- length_app. now apply scan_at.
Qed.

Lemma symbol_not_space (c : ascii) : in_symbol c = true -> is_space c = false.
Proof.
  unfold in_symbol, is_space.
  rewrite !andb_true_iff, !negb_true_iff, !orb_false_iff. tauto.
Qed.

Lemma parse_symbol_text (before spaces run after : list ascii) (c d : ascii) :
  forallb is_space spaces = true ->
  c <> "("%char -> is_digit c = false -> c <> QUOTE -> c <> NUL ->
  forallb in_symbol (c :: run) = true ->
  Forall (fun x => x <> NUL) run ->
  in_symbol d = false ->
  parse (before ++ spaces ++ (c :: run) ++ d :: after) (List.length before)
  = Returns (ParseSuccess (SymbolNode (String c (string_of_list_ascii run))),
             List.length before + List.length spaces + S (List.length run)).
Proof.
  intros Hspaces Hopen Hdigit Hquote Hnul Hrun Hplain Hd.
  rewrite (symbol_run_at before spaces run after c d); try assumption.
  - rewrite text_of_plain; [reflexivity|]. now constructor.
  - cbn [forallb] in Hrun. apply andb_true_iff in Hrun as [Hc _].
    now apply symbol_not_space.
Qed.

(** [parse] at a closing parenthesis after white space. *)
Lemma empty_symbol_at input pos p :
  scan is_space input pos = Returns p ->
  nth_error input p = Some ")"%char ->
  parse input pos = Returns (ParseSuccess (SymbolNode ""), p).
Proof.
  intros Hp Hc. rewrite parse_eq.
  rewrite (body_at_symbol _ input pos p Hp ")"%char p);
    try (assumption || discriminate || reflexivity).
  - rewrite Nat.sub_diag. now destruct (skipn p input).
  - now apply scan_stop with (c := ")"%char).
Qed.

Lemma horner_decimal_value (ds : list ascii) :
  horner ds 0 = int_wrap (decimal_value ds).
Proof.
  induction ds as [|d ds IH] using rev_ind.
  - reflexivity.
  - rewrite horner_snoc, IH. unfold decimal_value. rewrite fold_left_app.
    cbn [fold_left]. apply int_wrap_horner.
Qed.

Lemma children_snoc input pos nodes pos' node pos'' :
  children input pos nodes pos' ->
  children input pos' [node] pos'' ->
  children input pos (nodes ++ [node]) pos''.
Proof.
  induction 1 as [pos | pos c first next nodes pos' Hc Hclose Hnul Hfirst _ IH];
    intros Hlast.
  - exact Hlast.
  - cbn [app]. apply children_more with (c := c) (pos' := next); auto.
Qed.

(** *** The forms of the language *)

(** X10.  An opening parenthesis, complete children one after the other and
    a closing parenthesis right after the last of them parse as the list
    of these children, in their order, with the cursor after the closing
    parenthesis; with no child it is the empty list. *)
Theorem parse_list_form (input : list ascii) (pos p : nat)
        (nodes : list ast_node) (q : nat) :
  scan is_space input pos = Returns p ->
  nth_error input p = Some "("%char ->
  children input (S p) nodes q ->
  nth_error input q = Some ")"%char ->
  parse input pos = Returns (ParseSuccess (ListNode nodes), S q).
Proof. apply closed_list_at. Qed.

Lemma parse_list_form_witness :
  parse (c_string " (+ 12)") 0
  = Returns (ParseSuccess (ListNode [SymbolNode "+"; IntNode 12]), 7).
Proof.
  apply (parse_list_form (c_string " (+ 12)") 0 1 [SymbolNode "+"; IntNode 12] 6);
    try reflexivity.
  apply children_more with (c := "+"%char) (pos' := 3);
    [reflexivity | discriminate | discriminate | reflexivity |].
  apply children_more with (c := " "%char) (pos' := 6);
    [reflexivity | discriminate | discriminate | reflexivity |].
  apply children_none.
Defined.

(** X11.  White space between the last child of a list and its closing
    parenthesis gives the list one more child, the symbol of empty text:
    the list loop tests for the parenthesis before the white space is
    skipped. *)
Theorem parse_list_space_before_close (input : list ascii) (pos p : nat)
        (nodes : list ast_node) (q q' : nat) :
  scan is_space input pos = Returns p ->
  nth_error input p = Some "("%char ->
  children input (S p) nodes q ->
  scan is_space input q = Returns q' ->
  q < q' ->
  nth_error input q' = Some ")"%char ->
  parse input pos
  = Returns (ParseSuccess (ListNode (nodes ++ [SymbolNode ""])), S q').
Proof.
  intros Hp Hopen Hchildren Hq Hlt Hclose.
  apply closed_list_at with (p := p) (q := q'); try assumption.
  apply children_snoc with (pos' := q); [assumption|].
  pose proof (scan_bounds _ _ _ _ Hq) as Hb.
  destruct (nth_error input q) as [c|] eqn:Hc.
  2: { apply nth_error_None in Hc. lia. }
  pose proof (scan_first _ _ _ _ _ Hq Hc) as Hfirst.
  destruct (is_space c) eqn:Hspace; [|lia].
  apply children_more with (c := c) (pos' := q').
  - assumption.
  - intros ->. discriminate.
  - intros ->. discriminate.
  - now apply empty_symbol_at.
  - apply children_none.
Qed.

Lemma parse_list_space_before_close_witness :
  parse (line "(+ 1 )") 0
  = Returns (ParseSuccess (ListNode ([SymbolNode "+"; IntNode 1] ++ [SymbolNode ""])), 6).
Proof.
  apply (parse_list_space_before_close (line "(+ 1 )") 0 0 [SymbolNode "+"; IntNode 1] 4 5);
    try reflexivity; [|lia].
  apply children_more with (c := "+"%char) (pos' := 2);
    [reflexivity | discriminate | discriminate | reflexivity |].
  apply children_more with (c := " "%char) (pos' := 4);
    [reflexivity | discriminate | discriminate | reflexivity |].
  apply children_none.
Defined.

(** X12.  A run of digits ended by a character that is no digit parses as
    the integer the digits denote in decimal, wrapped to 32 bits: leading
    zeros are read like any digit, and a number that does not fit an [int]
    is no error. *)
Theorem parse_digit_run (before spaces ds after : list ascii) (c : ascii) :
  forallb is_space spaces = true ->
  ds <> [] -> forallb is_digit ds = true -> is_digit c = false ->
  parse (before ++ spaces ++ ds ++ c :: after) (List.length before)
  = Returns (ParseSuccess (IntNode (int_wrap (decimal_value ds))),
             List.length before + List.length spaces + List.length ds).
Proof.
  intros Hspaces Hne Hds Hc.
  rewrite <- horner_decimal_value. now apply digit_run_at.
Qed.

Lemma parse_digit_run_witness :
  parse ([] ++ [" "%char] ++ list_ascii_of_string "004294967298" ++ ")"%char :: [NUL]) 0
  = Returns (ParseSuccess (IntNode 2), 13).
Proof.
  apply (parse_digit_run [] [" "%char] (list_ascii_of_string "004294967298") [NUL] ")"%char);
    (reflexivity || discriminate).
Defined.

(** X13.  A run of characters that starts with none of white space,
    parentheses, digit, double quote and NUL, holds none of space, tab,
    newline, closing parenthesis and NUL, and is ended by one of space,
    tab, newline, closing parenthesis parses as the symbol of exactly
    these characters, with the cursor on the character that ends it. *)
Theorem parse_symbol_run (before spaces run after : list ascii) (c d : ascii) :
  forallb is_space spaces = true ->
  c <> "("%char -> is_digit c = false -> c <> QUOTE -> c <> NUL ->
  forallb in_symbol (c :: run) = true ->
  Forall (fun x => x <> NUL) run ->
  in_symbol d = false ->
  parse (before ++ spaces ++ (c :: run) ++ d :: after) (List.length before)
  = Returns (ParseSuccess (SymbolNode (String c (string_of_list_ascii run))),
             List.length before + List.length spaces + S (List.length run)).
Proof. apply parse_symbol_text. Qed.

Lemma parse_symbol_run_witness :
  parse ([] ++ [] ++ ("+"%char :: ["1"%char; "("%char]) ++ " "%char :: [NUL]) 0
  = Returns (ParseSuccess (SymbolNode "+1("), 3).
Proof.
  apply (parse_symbol_run [] [] ["1"%char; "("%char] [NUL] "+"%char " "%char);
    try (reflexivity || discriminate).
  repeat constructor; discriminate.
Defined.

(** X14.  A double quote, characters that are neither double quote nor
    NUL, and a second double quote parse as the string literal of exactly
    these characters, parentheses and white space among them, with the
    cursor after the second quote. *)
Theorem parse_string_literal (before spaces body after : list ascii) :
  forallb is_space spaces = true ->
  forallb in_string body = true ->
  parse (before ++ spaces ++ QUOTE :: body ++ QUOTE :: after) (List.length before)
  = Returns (ParseSuccess (StringNode (string_of_list_ascii body)),
             List.length before + List.length spaces + List.length body + 2).
Proof. apply string_run_at. Qed.

Lemma parse_string_literal_witness :
  parse ([] ++ [" "%char] ++ QUOTE :: list_ascii_of_string "a (b)" ++ QUOTE :: [NUL]) 0
  = Returns (ParseSuccess (StringNode "a (b)"), 8).
Proof.
  apply (parse_string_literal [] [" "%char] (list_ascii_of_string "a (b)") [NUL]);
    reflexivity.
Defined.

(** X16.  Leading white space plays no part: [parse] entered at the
    cursor and [parse] entered at the first character at or after it that
    is none of space, newline and tab return the same result and cursor. *)
Theorem parse_skips_space (input : list ascii) (pos p : nat) :
  scan is_space input pos = Returns p ->
  parse input pos = parse input p.
Proof.
  intros Hp. pose proof Hp as Hstop.
  apply scan_inv in Hstop as (_ & c & _ & _ & _ & Hc & _ & Hread & _).
  rewrite !parse_eq. unfold parse_body.
  now rewrite Hp, (scan_stop is_space input p c Hread Hc).
Qed.

Lemma parse_skips_space_witness :
  parse (line "  (+ 1 2)") 0 = parse (line "  (+ 1 2)") 2.
Proof. apply (parse_skips_space (line "  (+ 1 2)") 0 2). reflexivity. Defined.

(** *** What the driver prints, read again *)

Lemma process_input_of_node input node pos' :
  parse input 0 = Returns (ParseSuccess node, pos') ->
  process_input input =
  (eval_result <- eval_ast_node node ;;
   match eval_result with
   | Error message => Returns (inl message)
   | Success val => Returns (inr val)
   end).
Proof. intros H. unfold process_input. now rewrite H. Qed.

Lemma fgets_chars_short (chars : list ascii) : forall room,
  List.length chars < room -> ~ In LF chars ->
  fgets_chars room (chars ++ [LF]) = (chars ++ [LF])%list.
Proof.
  induction chars as [|c chars IH]; intros [|room] Hroom Hlf;
    cbn [List.length] in Hroom; try lia.
  - reflexivity.
  - cbn [app fgets_chars].
    destruct (c =? LF)%char eqn:Hc.
    + apply Ascii.eqb_eq in Hc. subst c. destruct Hlf. now left.
    + rewrite IH; [reflexivity | lia |]. intros Hin. apply Hlf. now right.
Qed.

(** A text of at most 1022 characters with no newline in it is stored
    whole, with its newline. *)
Lemma line_of_chars (chars : list ascii) :
  List.length chars <= 1022 -> ~ In LF chars ->
  line (string_of_list_ascii chars) = (chars ++ [LF; NUL])%list.
Proof.
  intros Hlen Hlf. unfold line. rewrite list_ascii_of_string_of_list_ascii.
  rewrite fgets_chars_short by (assumption || lia).
  now rewrite <- app_assoc.
Qed.

Lemma length_list_ascii_of_string (s : string) :
  List.length (list_ascii_of_string s) = String.length s.
Proof. induction s as [|c s IH]; cbn; [reflexivity | now rewrite IH]. Qed.

Lemma decimal_rev_length (fuel : nat) : forall n,
  List.length (decimal_rev fuel n) <= fuel.
Proof.
  induction fuel as [|fuel IH]; intros n; cbn [decimal_rev List.length].
  - lia.
  - destruct (n / 10 =? 0)%Z; cbn [List.length]; [lia|].
    specialize (IH (n / 10)%Z). lia.
Qed.

Lemma decimal_text_length (n : Z) : List.length (decimal_text n) <= 10.
Proof. unfold decimal_text. rewrite length_rev. apply decimal_rev_length. Qed.

Lemma decimal_text_no_newline (n : Z) : (0 <= n)%Z -> ~ In LF (decimal_text n).
Proof.
  intros Hn Hin. pose proof (decimal_text_digits n Hn) as Hdigits.
  rewrite forallb_forall in Hdigits. specialize (Hdigits LF Hin). discriminate.
Qed.

(** X15.  The text [print_value] writes for a value, taken as the next
    line of input, evaluates to that value when it is an [int] that is not
    negative, or a string with no double quote, no NUL and no newline that
    is at most 1020 characters long, so that [fgets] stores it whole
    between its quotes.  The text of a negative [int] does not read back:
    the minus sign makes it a symbol, and the driver reports that a symbol
    cannot be evaluated. *)
Theorem print_value_reads_back (val : value) :
  value_ok val ->
  (forall s, val = StringValue s ->
             String.length s <= 1020 /\ ~ In LF (list_ascii_of_string s)) ->
  process_input (line (print_value val)) =
  Returns match val with
          | IntValue v => if (v <? 0)%Z then inl BareSymbolNotEvaluable else inr val
          | StringValue _ => inr val
          end.
Proof.
  destruct val as [v|s]; cbn [value_ok print_value]; intros Hok Hfits.
  - unfold print_int.
    destruct (v <? 0)%Z eqn:Hsign.
    + apply Z.ltb_lt in Hsign.
      assert (Hdigits : forallb is_digit (decimal_text (- v)) = true)
        by (apply decimal_text_digits; lia).
      rewrite forallb_forall in Hdigits.
      rewrite line_of_chars.
      2: { pose proof (decimal_text_length (- v)). cbn [List.length]. lia. }
      2: { intros [Hminus | Hin]; [discriminate|].
           apply (decimal_text_no_newline (- v)); [lia | assumption]. }
      rewrite (process_input_of_node _
                 (SymbolNode (String "-" (string_of_list_ascii (decimal_text (- v)))))
                 (S (List.length (decimal_text (- v))))).
      * reflexivity.
      * apply (parse_symbol_text [] [] (decimal_text (- v)) [NUL] "-"%char LF);
          try (reflexivity || discriminate).
        -- cbn [forallb]. apply forallb_forall. intros c Hc.
           now destruct (digit_is_plain c (Hdigits c Hc)) as (_ & Hsym & _).
        -- apply Forall_forall. intros c Hc.
           now destruct (digit_is_plain c (Hdigits c Hc)) as (_ & _ & _ & _ & _ & _ & Hnul).
    + apply Z.ltb_ge in Hsign.
      rewrite line_of_chars.
      2: { pose proof (decimal_text_length v). lia. }
      2: { now apply decimal_text_no_newline. }
      rewrite (process_input_of_node _ (IntNode v) (List.length (decimal_text v))).
      * reflexivity.
      * destruct (decimal_text_first v) as (d & ds & Htext).
        assert (Hvalue : horner (decimal_text v) 0 = v).
        { apply horner_decimal_rev; unfold int_ok, INT_MAX in *; lia. }
        rewrite <- Hvalue at 2.
        apply (digit_run_at [] [] (decimal_text v) [NUL] LF);
          try reflexivity.
        -- rewrite Htext. discriminate.
        -- now apply decimal_text_digits.
  - destruct (Hfits s eq_refl) as [Hlen Hlf].
    rewrite <- (string_of_list_ascii_of_string (quoted s)).
    assert (Hchars : list_ascii_of_string (quoted s)
                     = (QUOTE :: list_ascii_of_string s ++ [QUOTE])%list).
    { unfold quoted. cbn [list_ascii_of_string].
      now rewrite list_ascii_of_string_append. }
    rewrite Hchars, line_of_chars.
    2: { cbn [List.length]. rewrite length_app, length_list_ascii_of_string.
         cbn [List.length]. lia. }
    2: { intros [Hquote | Hin]; [discriminate|].
         apply in_app_or in Hin as [Hin | [Hquote | []]];
           [now apply Hlf | discriminate]. }
    rewrite (process_input_of_node _ (StringNode s)
               (List.length (list_ascii_of_string s) + 2)).
    + reflexivity.
    + assert (Hbody : forallb in_string (list_ascii_of_string s) = true).
      { unfold string_text_ok in Hok. apply forallb_forall. intros c Hc.
        rewrite Forall_forall in Hok. destruct (Hok c Hc) as [Hquote Hnul].
        unfold in_string. apply Ascii.eqb_neq in Hquote, Hnul.
        now rewrite Hquote, Hnul. }
      pose proof (string_run_at [] [] (list_ascii_of_string s) [LF; NUL] eq_refl Hbody)
        as Hparse.
      cbn [app List.length Nat.add] in Hparse.
      rewrite string_of_list_ascii_of_string in Hparse.
      cbn [app]. rewrite <- app_assoc. exact Hparse.
Qed.

Lemma print_value_reads_back_witness :
  process_input (line (print_value (StringValue "a (b)")))
    = Returns (inr (StringValue "a (b)")) /\
  process_input (line (print_value (IntValue 2147483647)))
    = Returns (inr (IntValue 2147483647)) /\
  process_input (line (print_value (IntValue (-5))))
    = Returns (inl BareSymbolNotEvaluable).
Proof.
  split; [|split].
  - apply (print_value_reads_back (StringValue "a (b)")).
    + repeat constructor; discriminate.
    + intros s Hs. injection Hs as <-. split; [cbn; lia|].
      cbn. intuition discriminate.
  - apply (print_value_reads_back (IntValue 2147483647)).
    + unfold value_ok, int_ok, INT_MIN, INT_MAX. lia.
    + discriminate.
  - apply (print_value_reads_back (IntValue (-5))).
    + unfold value_ok, int_ok, INT_MIN, INT_MAX. lia.
    + discriminate.
Defined.

End ParserFurther.

(** * The examples of the specification, run through parser and evaluator *)

Section Examples.

Example sum_of_three : process_input (line "(+ 1 2 3)") = Returns (inr (IntValue 6)).
Proof. reflexivity. Qed.

Example sum_of_none : process_input (line "(+)") = Returns (inr (IntValue 0)).
Proof. reflexivity. Qed.

Example difference : process_input (line "(- 10 1 2)") = Returns (inr (IntValue 7)).
Proof. reflexivity. Qed.

Example nesting : process_input (line "(+ (+ 1 2) (- 5 1))") = Returns (inr (IntValue 7)).
Proof. reflexivity. Qed.

Example concat_of_none : process_input (line "(concat)") = Returns (inr (StringValue "")).
Proof. reflexivity. Qed.

Example concat_of_three :
  process_input
    (line ("(concat " ++ quoted "a" ++ " " ++ quoted "b" ++ " " ++ quoted "c" ++ ")"))
  = Returns (inr (StringValue "abc")).
Proof. reflexivity. Qed.

Example parens_in_string :
  process_input (line (quoted "a(b)c")) = Returns (inr (StringValue "a(b)c")).
Proof. reflexivity. Qed.

Example plus_one_is_a_symbol : process_input (line "(+1 2)") = Returns (inl UnknownOperator).
Proof. reflexivity. Qed.

Example empty_list : process_input (line "()") = Returns (inl EmptyListNotEvaluable).
Proof. reflexivity. Qed.

Example number_as_operator : process_input (line "(1 2)") = Returns (inl OperatorMustBeSymbol).
Proof. reflexivity. Qed.

Example unknown_operator : process_input (line "(foo 1)") = Returns (inl UnknownOperator).
Proof. reflexivity. Qed.

Example bare_symbol : process_input (line "x") = Returns (inl BareSymbolNotEvaluable).
Proof. reflexivity. Qed.

Example lone_paren_without_newline :
  process_input (c_string "(") = Returns (inl UnmatchedOpenParen).
Proof. reflexivity. Qed.

Example integer_wraps :
  process_input (line "(+ 2147483647 1)") = Returns (inr (IntValue INT_MIN)).
Proof. reflexivity. Qed.

Example decimal_text_of_zero : decimal_text 0 = list_ascii_of_string "0".
Proof. reflexivity. Qed.

Example decimal_text_of_int_max :
  decimal_text INT_MAX = list_ascii_of_string "2147483647".
Proof. reflexivity. Qed.

Example minus_of_none_reads_past_the_children :
  process_input (line "(-)") = Undefined.
Proof. reflexivity. Qed.

Example print_value_of_int_min :
  print_value (IntValue INT_MIN) = "-2147483648".
Proof. reflexivity. Qed.

Example print_value_of_string : print_value (StringValue "a b") = quoted "a b".
Proof. reflexivity. Qed.

(** White space before the closing parenthesis leaves the list loop with a
    character that is neither the parenthesis nor NUL: the nested call
    returns the empty symbol as one more child. *)
Example space_before_close :
  parse (line "(+ 1 2 )") 0
  = Returns (ParseSuccess (ListNode [SymbolNode "+"; IntNode 1; IntNode 2; SymbolNode ""]), 8).
Proof. reflexivity. Qed.

End Examples.
